(** * Reducers of the managing_state examples

    A shallow embedding of the two reducers of the repository,
    [messengerReducer] (ExtractingStateLogicIntoAReducer.js) and
    [tasksReducer] (PassingDataDeeplyWithContext.js), and of the
    [useMyReducer] container built on top of a state cell.

    Two levels are given.  The _value level_ sees states and actions as
    immutable structured values and is the one most statements are about.
    The _heap level_ places every JavaScript object in a store of cells
    addressed by references, so that "the reducer does not write into its
    argument" and "two calls return structurally equal objects" are
    statements with content; a refinement lemma ties both levels. *)

From stdpp Require Import base decidable option strings list gmap pretty.

Local Open Scope string_scope.

(** ** JavaScript values that reach the reducers *)

(** Primitive values.  Numbers are the integer ones (ids come from
    literals and from the [nextId++] counter), so [NaN] and fractions are
    outside the model and [===] on primitives is plain equality. *)
Inductive prim : Type :=
  | PUndefined
  | PNull
  | PBool (b : bool)
  | PNum (n : Z)
  | PStr (s : string).

#[global] Instance prim_eq_dec : EqDecision prim.
Proof. solve_decision. Defined.

#[global] Instance prim_inhabited : Inhabited prim := populate PUndefined.

(** [a === b] on primitives. *)
Definition strict_eq (a b : prim) : bool := bool_decide (a = b).

(** [ToString], used by string concatenation, by template literals and
    (as [ToPropertyKey]) by computed property names [[k]: v]. *)
Definition to_string (p : prim) : string :=
  match p with
  | PUndefined => "undefined"
  | PNull => "null"
  | PBool true => "true"
  | PBool false => "false"
  | PNum n => pretty n
  | PStr s => s
  end.

(** Exceptions the reducers can raise: [throw Error(msg)], and the
    [TypeError] of reading property [prop] of [undefined]. *)
Inductive exn : Type :=
  | Error (message : string)
  | TypeError (prop : string).

#[global] Instance exn_eq_dec : EqDecision exn.
Proof. solve_decision. Defined.

(** Outcome of evaluating a JavaScript expression: a value or a throw. *)
Inductive result (A : Type) : Type :=
  | Ok (a : A)
  | Throw (e : exn).
Arguments Ok {A} a.
Arguments Throw {A} e.

(** Sequencing: a throw skips the rest ([x ← r; k] is stdpp's notation
    for [mbind]). *)
#[global] Instance result_ret : MRet result := λ A a, Ok a.
#[global] Instance result_bind : MBind result := λ A B k r,
  match r with
  | Ok a => k a
  | Throw e => Throw e
  end.

(** [Array.prototype.map] with a callback that may throw: the callback
    runs once per element, left to right, and the first throw aborts the
    call.  On the empty array the callback never runs.  The monad [M] is
    [result] at the value level. *)
Fixpoint array_map {M : Type → Type} `{!MBind M, !MRet M} {A B}
    (f : A → M B) (l : list A) : M (list B) :=
  match l with
  | [] => mret []
  | x :: l' => y ← f x ; ys ← array_map f l' ; mret (y :: ys)
  end.

(** [Array.prototype.filter], likewise. *)
Fixpoint array_filter {M : Type → Type} `{!MBind M, !MRet M} {A}
    (f : A → M bool) (l : list A) : M (list A) :=
  match l with
  | [] => mret []
  | x :: l' =>
      keep ← f x ; ys ← array_filter f l' ;
      mret (if keep : bool then x :: ys else ys)
  end.

(** ** Value level *)

(** A task object [{id, text, done}]. *)
Record Task : Type := mkTask {
  t_id : prim;
  t_text : prim;
  t_done : prim;
}.

#[global] Instance Task_eq_dec : EqDecision Task.
Proof. solve_decision. Defined.

(** An action object.  The reducers observe an action only through the
    property reads [action.type], [action.contactId], [action.message],
    [action.id], [action.text] and [action.task]; a property the object
    does not have reads as [undefined].  [a_task] is [None] when
    [action.task] is [undefined]; the type [T] is what a task object is
    at the level at hand (a [Task] value, or a reference on the heap). *)
Record Action (T : Type) : Type := mkAction {
  a_type : prim;
  a_contactId : prim;
  a_message : prim;
  a_id : prim;
  a_text : prim;
  a_task : option T;
}.
Arguments mkAction {T}.
Arguments a_type {T}.
Arguments a_contactId {T}.
Arguments a_message {T}.
Arguments a_id {T}.
Arguments a_text {T}.
Arguments a_task {T}.

(** [{type: ty}] with no other property. *)
Definition action_of_type {T} (ty : string) : Action T :=
  mkAction (PStr ty) PUndefined PUndefined PUndefined PUndefined None.

(** The messenger state [{selectedId, messages}]; [messages] is an object
    used as a map, so its keys are property names. *)
Record State : Type := mkState {
  selectedId : prim;
  messages : gmap string prim;
}.

(** [export const initialState = { selectedId: 0, messages: { 0: '' } }] *)
Definition initialState : State :=
  {| selectedId := PNum 0; messages := {[ "0" := PStr "" ]} |}.

(** [export function messengerReducer(state, action)] *)
Definition messengerReducer {T} (state : State) (action : Action T) : result State :=
  if strict_eq (a_type action) (PStr "changed_selection") then
    Ok {| selectedId := a_contactId action; messages := messages state |}
  else if strict_eq (a_type action) (PStr "edited_message") then
    Ok {| selectedId := selectedId state;
          messages := <[to_string (selectedId state) := a_message action]> (messages state) |}
  else if strict_eq (a_type action) (PStr "sent_message") then
    Ok {| selectedId := selectedId state;
          messages := <[to_string (selectedId state) := PStr ""]> (messages state) |}
  else
    Throw (Error ("Unknown action: " +:+ to_string (a_type action))).

(** [task => task.id === action.task.id ? action.task : task].  This
    callback and the next one read [action.task.id]: when [action.task]
    is [undefined] that read throws a [TypeError]. *)
Definition changed_callback (action : Action Task) (task : Task) : result Task :=
  match a_task action with
  | None => Throw (TypeError "id")
  | Some t => Ok (if strict_eq (t_id task) (t_id t) then t else task)
  end.

(** [task => task.id !== action.task.id] *)
Definition deleted_callback (action : Action Task) (task : Task) : result bool :=
  match a_task action with
  | None => Throw (TypeError "id")
  | Some t => Ok (negb (strict_eq (t_id task) (t_id t)))
  end.

(** [const tasksReducer = function(tasks, action)] *)
Definition tasksReducer (tasks : list Task) (action : Action Task) : result (list Task) :=
  if strict_eq (a_type action) (PStr "added") then
    Ok (tasks ++ [ {| t_id := a_id action; t_text := a_text action; t_done := PBool false |} ])%list
  else if strict_eq (a_type action) (PStr "changed") then
    array_map (changed_callback action) tasks
  else if strict_eq (a_type action) (PStr "deleted") then
    array_filter (deleted_callback action) tasks
  else
    Throw (Error ("Unknown action: " +:+ to_string (a_type action))).

(** What the ['changed'] branch puts at the place of [t]. *)
Definition replace_by (task t : Task) : Task :=
  if decide (t_id t = t_id task) then task else t.

(** [const initialTasks = [...]] *)
Definition initialTasks : list Task :=
  [ mkTask (PNum 0) (PStr "Philosopher’s Path") (PBool true);
    mkTask (PNum 1) (PStr "Visit the temple") (PBool false);
    mkTask (PNum 2) (PStr "Drink matcha") (PBool false) ].

(** The action the Delete button of the [Task] component dispatches:
    [{ type: 'deleted', id: task.id }]. *)
Definition delete_button_action {T} (task : Task) : Action T :=
  mkAction (PStr "deleted") PUndefined PUndefined (t_id task) PUndefined None.

(** ** The container *)

Section Container.
Context {S A : Type}.

(** Modelled from the spec: React's [useState] is imported, not defined
    in the repository.  The state store of the spec holds the current
    snapshot and [getState] returns it. *)
Record Store : Type := mkStore { getState : S }.

(** Modelled from the spec: the state replacement of the store, asked
    for with an updater function as in [setState(prev => next)].  The
    updater is computed on the current snapshot and its result becomes
    the snapshot; an updater that throws propagates its error and
    replaces nothing. *)
Definition setState (updater : S → result S) (store : Store) : result unit * Store :=
  match updater (getState store) with
  | Ok next => (Ok (), mkStore next)
  | Throw e => (Throw e, store)
  end.

Variable reducer : S → A → result S.

(** [const dispatch = (action) => setState(prev => reducer(prev, action))] *)
Definition dispatch (action : A) : Store → result unit * Store :=
  setState (λ prev, reducer prev action).

(** [export const useMyReducer = (reducer, initialState) => ...]: the
    state cell and the [dispatch] closure. *)
Definition useMyReducer (initialState : S) : Store * (A → Store → result unit * Store) :=
  (mkStore initialState, dispatch).

(** Dispatching a list of actions one after the other; an error that
    comes out of a [dispatch] is seen by its caller and the next action
    is dispatched on the store as that call left it. *)
Definition dispatch_all (actions : list A) (store : Store) : Store :=
  foldl (λ st a, (dispatch a st).2) store actions.

(** Independent sequential replay:
    [reducer(...reducer(reducer(s, a1), a2)..., an)]. *)
Fixpoint replay (state : S) (actions : list A) : result S :=
  match actions with
  | [] => Ok state
  | a :: rest => s' ← reducer state a ; replay s' rest
  end.

(** What a store holds after a [dispatch]: the reducer's result, or the
    old state when the reducer threw. *)
Definition step (state : S) (action : A) : S :=
  match reducer state action with
  | Ok s' => s'
  | Throw _ => state
  end.
End Container.

Arguments Store S : clear implicits.

(** ** Heap level *)

(** Objects live in a store of cells; a reference is an address.  The
    cells have the shapes the two examples create: the messenger state
    (its [messages] property holds a reference), a message map, a task
    object, and an array of references to task objects. *)
Definition loc := positive.

Inductive cell : Type :=
  | CState (sel : prim) (msgs : loc)
  | CMessages (m : gmap string prim)
  | CTask (t : Task)
  | CTasks (elems : list loc).

Abbreviation heap := (gmap loc cell).

(** An object or array literal allocates a cell at an unused address. *)
Definition alloc (c : cell) (h : heap) : loc * heap :=
  let l := fresh (dom h) in (l, <[l := c]> h).

(** Evaluation on the heap either gets stuck on a reference that does
    not hold the expected shape ([None], outside JavaScript), or behaves
    as at the value level. *)
Definition hres (A : Type) : Type := option (result A).

#[global] Instance hres_ret : MRet hres := λ A a, Some (Ok a).
#[global] Instance hres_bind : MBind hres := λ A B k r,
  match r with
  | Some (Ok a) => k a
  | Some (Throw e) => Some (Throw e)
  | None => None
  end.

Definition read_state (h : heap) (l : loc) : hres (prim * loc) :=
  match h !! l with
  | Some (CState sel msgs) => Some (Ok (sel, msgs))
  | _ => None
  end.

Definition read_messages (h : heap) (l : loc) : hres (gmap string prim) :=
  match h !! l with
  | Some (CMessages m) => Some (Ok m)
  | _ => None
  end.

Definition read_task (h : heap) (l : loc) : hres Task :=
  match h !! l with
  | Some (CTask t) => Some (Ok t)
  | _ => None
  end.

Definition read_tasks (h : heap) (l : loc) : hres (list loc) :=
  match h !! l with
  | Some (CTasks elems) => Some (Ok elems)
  | _ => None
  end.

(** [messengerReducer] on the heap: [state] is a reference, the result
    is a reference to a new object.  [{...state, selectedId: v}] copies
    the [messages] reference; [{...state.messages, [k]: v}] is a new map
    object. *)
Definition messengerReducerH (state : loc) (action : Action loc) (h : heap)
    : option (result loc * heap) :=
  if strict_eq (a_type action) (PStr "changed_selection") then
    match read_state h state with
    | Some (Ok (_, msgs)) =>
        let '(l, h1) := alloc (CState (a_contactId action) msgs) h in
        Some (Ok l, h1)
    | _ => None
    end
  else if strict_eq (a_type action) (PStr "edited_message") then
    match (sm ← read_state h state ; m ← read_messages h sm.2 ; mret (sm.1, m)) with
    | Some (Ok (sel, m)) =>
        let '(lm, h1) := alloc (CMessages (<[to_string sel := a_message action]> m)) h in
        let '(l, h2) := alloc (CState sel lm) h1 in
        Some (Ok l, h2)
    | _ => None
    end
  else if strict_eq (a_type action) (PStr "sent_message") then
    match (sm ← read_state h state ; m ← read_messages h sm.2 ; mret (sm.1, m)) with
    | Some (Ok (sel, m)) =>
        let '(lm, h1) := alloc (CMessages (<[to_string sel := PStr ""]> m)) h in
        let '(l, h2) := alloc (CState sel lm) h1 in
        Some (Ok l, h2)
    | _ => None
    end
  else
    Some (Throw (Error ("Unknown action: " +:+ to_string (a_type action))), h).

(** [action.task.id] on the heap. *)
Definition action_task_idH (h : heap) (action : Action loc) : hres (loc * prim) :=
  match a_task action with
  | None => Some (Throw (TypeError "id"))
  | Some lt => t ← read_task h lt ; mret (lt, t_id t)
  end.

(** [task => task.id === action.task.id ? action.task : task]: the new
    array holds the reference [action.task] itself. *)
Definition changed_callbackH (h : heap) (action : Action loc) (task : loc) : hres loc :=
  t ← read_task h task ;
  a ← action_task_idH h action ;
  mret (if strict_eq (t_id t) a.2 then a.1 else task).

(** [task => task.id !== action.task.id] *)
Definition deleted_callbackH (h : heap) (action : Action loc) (task : loc) : hres bool :=
  t ← read_task h task ;
  a ← action_task_idH h action ;
  mret (negb (strict_eq (t_id t) a.2)).

(** [tasksReducer] on the heap: [tasks] is a reference to an array of
    references, the result is a reference to a new array. *)
Definition tasksReducerH (tasks : loc) (action : Action loc) (h : heap)
    : option (result loc * heap) :=
  if strict_eq (a_type action) (PStr "added") then
    match read_tasks h tasks with
    | Some (Ok elems) =>
        let '(lt, h1) := alloc (CTask (mkTask (a_id action) (a_text action) (PBool false))) h in
        let '(l, h2) := alloc (CTasks (elems ++ [lt])%list) h1 in
        Some (Ok l, h2)
    | _ => None
    end
  else if strict_eq (a_type action) (PStr "changed") then
    match (elems ← read_tasks h tasks ; array_map (changed_callbackH h action) elems) with
    | Some (Ok elems') => let '(l, h1) := alloc (CTasks elems') h in Some (Ok l, h1)
    | Some (Throw e) => Some (Throw e, h)
    | None => None
    end
  else if strict_eq (a_type action) (PStr "deleted") then
    match (elems ← read_tasks h tasks ; array_filter (deleted_callbackH h action) elems) with
    | Some (Ok elems') => let '(l, h1) := alloc (CTasks elems') h in Some (Ok l, h1)
    | Some (Throw e) => Some (Throw e, h)
    | None => None
    end
  else
    Some (Throw (Error ("Unknown action: " +:+ to_string (a_type action))), h).

(** *** Reading a structured value back from the heap *)

Definition snap_task (h : heap) (l : loc) : option Task :=
  match h !! l with
  | Some (CTask t) => Some t
  | _ => None
  end.

Definition snap_tasks (h : heap) (l : loc) : option (list Task) :=
  match h !! l with
  | Some (CTasks elems) => mapM (snap_task h) elems
  | _ => None
  end.

Definition snap_state (h : heap) (l : loc) : option State :=
  match h !! l with
  | Some (CState sel lm) =>
      match h !! lm with
      | Some (CMessages m) => Some (mkState sel m)
      | _ => None
      end
  | _ => None
  end.

Definition snap_action (h : heap) (action : Action loc) : option (Action Task) :=
  match a_task action with
  | None =>
      Some (mkAction (a_type action) (a_contactId action) (a_message action)
              (a_id action) (a_text action) None)
  | Some lt =>
      t ← snap_task h lt ;
      Some (mkAction (a_type action) (a_contactId action) (a_message action)
              (a_id action) (a_text action) (Some t))
  end.

(** The structured value of an outcome: of the object returned, or the
    exception thrown. *)
Definition snap_result {V} (snap : heap → loc → option V) (h : heap) (r : result loc)
    : option (result V) :=
  match r with
  | Ok l => Ok <$> snap h l
  | Throw e => Some (Throw e)
  end.

(** Outcomes related component-wise: same exception, or related values. *)
Definition res_rel {X Y} (R : X → Y → Prop) (r : result X) (v : result Y) : Prop :=
  match r, v with
  | Ok x, Ok y => R x y
  | Throw e, Throw e' => e = e'
  | _, _ => False
  end.

(** A call is _pure on [h]_ for an argument whose structured value is
    read by [snap_arg]: it returns; every cell of [h] is still there with
    the same content afterwards, so the argument reads back as before;
    and a second call, made after the first, again leaves every cell as
    it was and returns an outcome that has the same structured value as
    the outcome of the first call. *)
Definition pure_call {V W} (snap_arg : heap → loc → option V)
    (snap_res : heap → loc → option W)
    (call : heap → option (result loc * heap)) (arg : loc) (h : heap) : Prop :=
  ∃ r1 h1 r2 h2 v,
    call h = Some (r1, h1) ∧ call h1 = Some (r2, h2) ∧
    h ⊆ h1 ∧ h1 ⊆ h2 ∧
    snap_arg h1 arg = snap_arg h arg ∧ snap_arg h2 arg = snap_arg h arg ∧
    snap_result snap_res h1 r1 = Some v ∧
    snap_result snap_res h2 r1 = Some v ∧
    snap_result snap_res h2 r2 = Some v.

(** A heap with the initial messenger state at address 1 and the initial
    task array at address 6, and at address 7 a task object that an
    action can refer to. *)
Definition example_heap : heap :=
  {[ 1%positive := CState (PNum 0) 2%positive;
     2%positive := CMessages {[ "0" := PStr "" ]};
     3%positive := CTask (mkTask (PNum 0) (PStr "Philosopher’s Path") (PBool true));
     4%positive := CTask (mkTask (PNum 1) (PStr "Visit the temple") (PBool false));
     5%positive := CTask (mkTask (PNum 2) (PStr "Drink matcha") (PBool false));
     6%positive := CTasks [3%positive; 4%positive; 5%positive];
     7%positive := CTask (mkTask (PNum 1) (PStr "Visit the temple") (PBool true)) ]}.

(** ** The messenger component and its event handlers *)

(** An entry of [contacts]: [{id, name, email}]. *)
Record Contact : Type := mkContact {
  c_id : prim;
  c_name : prim;
  c_email : prim;
}.

#[global] Instance Contact_eq_dec : EqDecision Contact.
Proof. solve_decision. Defined.

(** [const contacts = [...]] *)
Definition contacts : list Contact :=
  [ mkContact (PNum 0) (PStr "Taylor") (PStr "taylor@mail.com");
    mkContact (PNum 1) (PStr "Alice") (PStr "alice@mail.com");
    mkContact (PNum 2) (PStr "Bob") (PStr "bob@mail.com") ].

(** [const message = state.messages[state.selectedId]]: a key that is
    not bound reads as [undefined] (properties inherited from
    [Object.prototype] are outside the model; the ids here are numbers). *)
Definition current_message (state : State) : prim :=
  default PUndefined (messages state !! to_string (selectedId state)).

(** [const contact = contacts.find((c) => c.id === state.selectedId)]:
    the first match, [None] for [undefined]. *)
Definition current_contact (state : State) : option Contact :=
  List.find (λ c, strict_eq (c_id c) (selectedId state)) contacts.

(** The props [DISPATCH_ACTIONS_FROM_EVENT_HANDLERS] hands to [Chat]. *)
Record ChatProps : Type := mkChatProps {
  chat_key : prim;
  chat_message : prim;
  chat_contact : Contact;
}.

(** The body of [DISPATCH_ACTIONS_FROM_EVENT_HANDLERS] on a given state:
    [key={contact.id}] reads [id] of [undefined] when no contact has the
    selected id. *)
Definition DISPATCH_ACTIONS_FROM_EVENT_HANDLERS (state : State) : result ChatProps :=
  match current_contact state with
  | Some contact =>
      Ok {| chat_key := c_id contact;
            chat_message := current_message state;
            chat_contact := contact |}
  | None => Throw (TypeError "id")
  end.

(** What the user can do: click the button of a contact in
    [ContactList], type in the textarea of [Chat], click its send
    button. *)
Inductive MessengerEvent : Type :=
  | ClickContact (contact : Contact)
  | ChangeMessage (value : string)
  | ClickSend.

(** The action each handler dispatches:
    [{ type: "changed_selection", contactId: contact.id }],
    [{ type: "edited_message", message: e.target.value }],
    [{ type: "sent_message" }]. *)
Definition messenger_event_action {T} (ev : MessengerEvent) : Action T :=
  match ev with
  | ClickContact contact =>
      mkAction (PStr "changed_selection") (c_id contact) PUndefined PUndefined PUndefined None
  | ChangeMessage value =>
      mkAction (PStr "edited_message") PUndefined (PStr value) PUndefined PUndefined None
  | ClickSend => action_of_type "sent_message"
  end.

(** [ContactList] renders one button per entry of [contacts], so only
    those can be clicked. *)
Definition messenger_event_enabled (ev : MessengerEvent) : Prop :=
  match ev with
  | ClickContact contact => contact ∈ contacts
  | _ => True
  end.

(** What holds of the states the component can be in: the selected id
    is the id of a contact, and every stored message is a string. *)
Definition messenger_wf (state : State) : Prop :=
  (∃ c, c ∈ contacts ∧ c_id c = selectedId state) ∧
  ∀ k v, messages state !! k = Some v → ∃ s, v = PStr s.

(** ** The task components and their event handlers *)

(** The module-level counter [let nextId = 4], the [text] state of
    [AddTask] and the task list held by the reducer. *)
Record TasksApp : Type := mkTasksApp {
  nextId : Z;
  add_text : string;
  app_tasks : list Task;
}.

Definition initialTasksApp : TasksApp :=
  {| nextId := 4; add_text := ""; app_tasks := initialTasks |}.

(** Events of [AddTask] (typing in the input, clicking Add) and of a
    [Task] component rendered for [task] (typing in its input, ticking
    its checkbox, clicking Delete). *)
Inductive TaskEvent : Type :=
  | ChangeAddText (value : string)
  | ClickAdd
  | ChangeTaskText (task : Task) (value : string)
  | ChangeTaskDone (task : Task) (checked : bool)
  | ClickDelete (task : Task).

(** The action a handler dispatches, if it dispatches one:
    [{ type: 'added', id: nextId++, text: text }],
    [{ type: 'changed', task: { ...task, text: e.target.value } }],
    [{ type: 'changed', task: { ...task, done: e.target.checked } }],
    [{ type: 'deleted', id: task.id }]. *)
Definition task_event_action (app : TasksApp) (ev : TaskEvent) : option (Action Task) :=
  match ev with
  | ChangeAddText _ => None
  | ClickAdd =>
      Some (mkAction (PStr "added") PUndefined PUndefined
              (PNum (nextId app)) (PStr (add_text app)) None)
  | ChangeTaskText task value =>
      Some (mkAction (PStr "changed") PUndefined PUndefined PUndefined PUndefined
              (Some {| t_id := t_id task; t_text := PStr value; t_done := t_done task |}))
  | ChangeTaskDone task checked =>
      Some (mkAction (PStr "changed") PUndefined PUndefined PUndefined PUndefined
              (Some {| t_id := t_id task; t_text := t_text task; t_done := PBool checked |}))
  | ClickDelete task => Some (delete_button_action task)
  end.

(** One handler call: [setText] for the input of [AddTask], [nextId++]
    for Add, and the reducer on the dispatched action; a throw of the
    reducer ends the handler with that error. *)
Definition task_event_step (app : TasksApp) (ev : TaskEvent) : result TasksApp :=
  let counter := match ev with ClickAdd => (nextId app + 1)%Z | _ => nextId app end in
  let text := match ev with ChangeAddText value => value | _ => add_text app end in
  match task_event_action app ev with
  | None => Ok {| nextId := counter; add_text := text; app_tasks := app_tasks app |}
  | Some action =>
      tasks ← tasksReducer (app_tasks app) action ;
      Ok {| nextId := counter; add_text := text; app_tasks := tasks |}
  end.

(** The ids of the task list are pairwise distinct, and they are numbers
    below the counter. *)
Definition tasks_ids_fresh (app : TasksApp) : Prop :=
  NoDup (t_id <$> app_tasks app) ∧
  Forall (λ i, ∃ n, i = PNum n ∧ (n < nextId app)%Z) (t_id <$> app_tasks app).

#[global] Instance TaskEvent_eq_dec : EqDecision TaskEvent.
Proof. solve_decision. Defined.

Definition is_click_delete (ev : TaskEvent) : bool :=
  match ev with
  | ClickDelete _ => true
  | _ => false
  end.

(** How many times Add is clicked in a list of events. *)
Definition count_adds (events : list TaskEvent) : nat :=
  length (filter (λ ev, ev = ClickAdd) events).

(** ** Nested sections and headings *)

(** [const LevelContext = createContext(0)] *)
Definition LevelContext_default : Z := 0.

(** [Section] provides [level + 1] to its children, [level] being the
    value it reads itself. *)
Definition Section_level (level : Z) : Z := (level + 1)%Z.

(** [function Heading(props)]: the tag of the element returned for the
    level read from the context, with its children; the [case] labels
    are compared with [===]. *)
Definition Heading (level : prim) (children : string) : result (string * string) :=
  if strict_eq level (PNum 1) then Ok ("h1", children)
  else if strict_eq level (PNum 2) then Ok ("h2", children)
  else if strict_eq level (PNum 3) then Ok ("h3", children)
  else if strict_eq level (PNum 4) then Ok ("h4", children)
  else if strict_eq level (PNum 5) then Ok ("h5", children)
  else if strict_eq level (PNum 6) then Ok ("h6", children)
  else Throw (Error ("Unknown level: " +:+ to_string level)).

(** [export function getImageUrl(place)], on the [imageId] of the place. *)
Definition getImageUrl (imageId : prim) : string :=
  "https://i.imgur.com/" +:+ to_string imageId +:+ "l.jpg".

(** ** Other state updates of the examples *)

#[global] Instance prim_countable : Countable prim.
Proof.
  refine (inj_countable'
    (λ p, match p with
          | PUndefined => inl (inl ())
          | PNull => inl (inr ())
          | PBool b => inr (inl b)
          | PNum n => inr (inr (inl n))
          | PStr s => inr (inr (inr s))
          end)
    (λ x, match x with
          | inl (inl _) => PUndefined
          | inl (inr _) => PNull
          | inr (inl b) => PBool b
          | inr (inr (inl n)) => PNum n
          | inr (inr (inr s)) => PStr s
          end) _).
  by intros [].
Defined.

(** The updater of [handleToggle] in [IMPLEMENT_MULTIPLE_SELECTION]:
    [next = new Set(prev)], then [next.delete(toggledId)] if
    [next.has(toggledId)] and [next.add(toggledId)] otherwise. *)
Definition handleToggle (toggledId : prim) (prev : gset prim) : gset prim :=
  if decide (toggledId ∈ prev) then prev ∖ {[ toggledId ]} else prev ∪ {[ toggledId ]}.

(** A place of the travel plan, as [TravelPlan] and [PlaceTree] read it:
    [place.title] and [place.childIds]. *)
Record Place : Type := mkPlace {
  p_title : prim;
  p_childIds : list prim;
}.

(** [handleComplete(parentId, childId)] of [TravelPlan]: the plan it
    hands to [setPlan].  [plan[parentId]] is [undefined] for a key that
    is not bound, and reading its [childIds] is then a [TypeError]. *)
Definition handleComplete (plan : gmap string Place) (parentId childId : prim)
    : result (gmap string Place) :=
  match plan !! to_string parentId with
  | None => Throw (TypeError "childIds")
  | Some parent =>
      let nextParent :=
        {| p_title := p_title parent;
           p_childIds := filter (λ id, id ≠ childId) (p_childIds parent) |} in
      Ok (<[to_string parentId := nextParent]> plan)
  end.

(** [handleClick] of [CLEAR_AN_IMAGE_WHILE_IT_IS_LOADING]: the index it
    sets, [hasNext] being [index < images.length - 1]. *)
Definition next_image_index (count index : Z) : Z :=
  if decide (index < count - 1)%Z then (index + 1)%Z else 0%Z.

(** [handleClick] of [SCROLLING_AN_IMAGE_CAROUSEL]:
    [prev => (prev + 1) % challengesCatList.length]; [%] is the remainder
    that takes the sign of the dividend. *)
Definition next_cat_index (count prev : Z) : Z :=
  Z.rem (prev + 1) count.

(** * Properties *)

(** ** Reading the switch *)

Lemma strict_eq_true (a b : prim) : strict_eq a b = true ↔ a = b.
Proof. unfold strict_eq. apply bool_decide_eq_true. Qed.

Lemma strict_eq_false (a b : prim) : strict_eq a b = false ↔ a ≠ b.
Proof. unfold strict_eq. apply bool_decide_eq_false. Qed.

Lemma strict_eq_refl (a : prim) : strict_eq a a = true.
Proof. by apply strict_eq_true. Qed.

(** ** messengerReducer *)

Lemma messengerReducer_changed_selection {T} (state : State) (action : Action T) :
  a_type action = PStr "changed_selection" →
  messengerReducer state action
  = Ok {| selectedId := a_contactId action; messages := messages state |}.
Proof. intros H. unfold messengerReducer. by rewrite H. Qed.

Lemma messengerReducer_edited_message {T} (state : State) (action : Action T) :
  a_type action = PStr "edited_message" →
  messengerReducer state action
  = Ok {| selectedId := selectedId state;
          messages := <[to_string (selectedId state) := a_message action]> (messages state) |}.
Proof. intros H. unfold messengerReducer. by rewrite H. Qed.

Lemma messengerReducer_sent_message {T} (state : State) (action : Action T) :
  a_type action = PStr "sent_message" →
  messengerReducer state action
  = Ok {| selectedId := selectedId state;
          messages := <[to_string (selectedId state) := PStr ""]> (messages state) |}.
Proof. intros H. unfold messengerReducer. by rewrite H. Qed.

Lemma messengerReducer_default {T} (state : State) (action : Action T) :
  a_type action ≠ PStr "changed_selection" →
  a_type action ≠ PStr "edited_message" →
  a_type action ≠ PStr "sent_message" →
  messengerReducer state action
  = Throw (Error ("Unknown action: " +:+ to_string (a_type action))).
Proof.
  intros H1 H2 H3. unfold messengerReducer.
  by rewrite !(proj2 (strict_eq_false _ _)).
Qed.

(** C6: on [changed_selection] the reducer returns a state whose
    [selectedId] is [action.contactId] and whose [messages] is the map of
    the input state, unchanged. *)
Theorem changed_selection_frame {T} (state : State) (action : Action T) :
  a_type action = PStr "changed_selection" →
  ∃ state', messengerReducer state action = Ok state' ∧
    selectedId state' = a_contactId action ∧
    messages state' = messages state.
Proof.
  intros H. eexists. split; [by apply messengerReducer_changed_selection|]. done.
Qed.

Lemma changed_selection_frame_witness :
  ∃ state',
    messengerReducer initialState
      (mkAction (T:=Task) (PStr "changed_selection") (PNum 2) PUndefined PUndefined PUndefined None)
    = Ok state' ∧
    selectedId state' = PNum 2 ∧
    messages state' = messages initialState.
Proof.
  apply (changed_selection_frame initialState
           (mkAction (T:=Task) (PStr "changed_selection") (PNum 2)
              PUndefined PUndefined PUndefined None)).
  reflexivity.
Defined.

(** C5: on [edited_message] the reducer returns a state with the same
    [selectedId] whose [messages] binds the key of [state.selectedId] to
    [action.message] and every other key to what it was bound to. *)
Theorem edited_message_updates {T} (state : State) (action : Action T) :
  a_type action = PStr "edited_message" →
  ∃ state', messengerReducer state action = Ok state' ∧
    selectedId state' = selectedId state ∧
    messages state' !! to_string (selectedId state) = Some (a_message action) ∧
    ∀ k, k ≠ to_string (selectedId state) →
         messages state' !! k = messages state !! k.
Proof.
  intros H. eexists. split; [by apply messengerReducer_edited_message|].
  simpl. split; [done|]. split.
  - apply lookup_insert_eq.
  - intros k Hk. by apply lookup_insert_ne.
Qed.

Lemma edited_message_updates_witness :
  ∃ state',
    messengerReducer initialState
      (mkAction (T:=Task) (PStr "edited_message") PUndefined (PStr "hello") PUndefined PUndefined None)
    = Ok state' ∧
    selectedId state' = PNum 0 ∧
    messages state' !! "0" = Some (PStr "hello") ∧
    ∀ k, k ≠ "0" → messages state' !! k = messages initialState !! k.
Proof.
  apply (edited_message_updates initialState
           (mkAction (T:=Task) (PStr "edited_message") PUndefined (PStr "hello")
              PUndefined PUndefined None)).
  reflexivity.
Defined.

(** C3: on [sent_message] the reducer returns a state with the same
    [selectedId] whose [messages] binds the key of [state.selectedId] to
    the empty string, whether or not the key was bound before, and every
    other key to what it was bound to; on
    [{selectedId: 1, messages: {0: 'hi'}}] the result is
    [{selectedId: 1, messages: {0: 'hi', 1: ''}}]. *)
Theorem sent_message_clears {T} (state : State) (action : Action T) :
  a_type action = PStr "sent_message" →
  (∃ state', messengerReducer state action = Ok state' ∧
     selectedId state' = selectedId state ∧
     messages state' !! to_string (selectedId state) = Some (PStr "") ∧
     ∀ k, k ≠ to_string (selectedId state) →
          messages state' !! k = messages state !! k) ∧
  messengerReducer {| selectedId := PNum 1; messages := {[ "0" := PStr "hi" ]} |} action
  = Ok {| selectedId := PNum 1;
          messages := {[ "0" := PStr "hi"; "1" := PStr "" ]} |}.
Proof.
  intros H. split.
  - eexists. split; [by apply messengerReducer_sent_message|].
    simpl. split; [done|]. split.
    + apply lookup_insert_eq.
    + intros k Hk. by apply lookup_insert_ne.
  - rewrite messengerReducer_sent_message by done. reflexivity.
Qed.

Lemma sent_message_clears_witness :
  messengerReducer (T:=Task) {| selectedId := PNum 1; messages := {[ "0" := PStr "hi" ]} |}
    (action_of_type "sent_message")
  = Ok {| selectedId := PNum 1;
          messages := {[ "0" := PStr "hi"; "1" := PStr "" ]} |}.
Proof.
  apply (sent_message_clears initialState (action_of_type (T:=Task) "sent_message")).
  reflexivity.
Defined.

(** C4: from [initialState], [{type: 'edited_message', message: 'hi'}]
    gives [{selectedId: 0, messages: {0: 'hi'}}], and from there
    [{type: 'changed_selection', contactId: 1}] gives
    [{selectedId: 1, messages: {0: 'hi'}}]: key 0 keeps its message and
    key 1 is not bound. *)
Theorem scenario_edit_then_select :
  let edited : Action Task :=
    mkAction (PStr "edited_message") PUndefined (PStr "hi") PUndefined PUndefined None in
  let selected : Action Task :=
    mkAction (PStr "changed_selection") (PNum 1) PUndefined PUndefined PUndefined None in
  let s1 := {| selectedId := PNum 0; messages := {[ "0" := PStr "hi" ]} |} in
  let s2 := {| selectedId := PNum 1; messages := {[ "0" := PStr "hi" ]} |} in
  initialState = {| selectedId := PNum 0; messages := {[ "0" := PStr "" ]} |} ∧
  messengerReducer initialState edited = Ok s1 ∧
  messengerReducer s1 selected = Ok s2 ∧
  messages s2 !! "0" = Some (PStr "hi") ∧
  messages s2 !! "1" = None ∧
  dom (messages s2) = {[ "0" ]}.
Proof.
  simpl. split; [done|]. split.
  { by rewrite messengerReducer_edited_message. }
  split; [by rewrite messengerReducer_changed_selection|].
  split; [done|]. split; [done|].
  by rewrite dom_singleton_L.
Qed.

(** ** Array callbacks *)

Section ArrayCallbacks.
Context {A B : Type}.

Lemma array_map_ok (f : A → result B) (g : A → B) (l : list A) :
  (∀ x, x ∈ l → f x = Ok (g x)) → array_map f l = Ok (g <$> l).
Proof.
  induction l as [|x l IH]; intros Hf; simpl; [done|].
  rewrite Hf by left. simpl. rewrite IH; [done|].
  intros y Hy. apply Hf. by right.
Qed.

Lemma array_filter_ok (f : A → result bool) (P : A → Prop)
    `{!∀ x, Decision (P x)} (l : list A) :
  (∀ x, x ∈ l → f x = Ok (bool_decide (P x))) →
  array_filter f l = Ok (filter P l).
Proof.
  induction l as [|x l IH]; intros Hf; simpl; [done|].
  rewrite Hf by left. simpl. rewrite IH by (intros y Hy; apply Hf; by right).
  simpl. rewrite filter_cons. by case_bool_decide; case_decide.
Qed.

(** A callback that throws on the first element aborts the call; with
    no element there is no call of the callback and no throw. *)
Lemma array_map_throw (f : A → result B) (e : exn) (x : A) (l : list A) :
  f x = Throw e → array_map f (x :: l) = Throw e.
Proof. intros Hf. simpl. by rewrite Hf. Qed.

Lemma array_filter_throw (f : A → result bool) (e : exn) (x : A) (l : list A) :
  f x = Throw e → array_filter f (x :: l) = Throw e.
Proof. intros Hf. simpl. by rewrite Hf. Qed.
End ArrayCallbacks.

(** ** tasksReducer *)

Lemma tasksReducer_added (tasks : list Task) (action : Action Task) :
  a_type action = PStr "added" →
  tasksReducer tasks action
  = Ok (tasks ++ [mkTask (a_id action) (a_text action) (PBool false)])%list.
Proof. intros H. unfold tasksReducer. by rewrite H. Qed.

Lemma tasksReducer_changed (tasks : list Task) (action : Action Task) :
  a_type action = PStr "changed" →
  tasksReducer tasks action = array_map (changed_callback action) tasks.
Proof. intros H. unfold tasksReducer. by rewrite H. Qed.

Lemma tasksReducer_deleted (tasks : list Task) (action : Action Task) :
  a_type action = PStr "deleted" →
  tasksReducer tasks action = array_filter (deleted_callback action) tasks.
Proof. intros H. unfold tasksReducer. by rewrite H. Qed.

Lemma tasksReducer_default (tasks : list Task) (action : Action Task) :
  a_type action ≠ PStr "added" →
  a_type action ≠ PStr "changed" →
  a_type action ≠ PStr "deleted" →
  tasksReducer tasks action
  = Throw (Error ("Unknown action: " +:+ to_string (a_type action))).
Proof.
  intros H1 H2 H3. unfold tasksReducer.
  by rewrite !(proj2 (strict_eq_false _ _)).
Qed.

Lemma tasksReducer_changed_some (tasks : list Task) (action : Action Task) (task : Task) :
  a_type action = PStr "changed" →
  a_task action = Some task →
  tasksReducer tasks action = Ok (replace_by task <$> tasks).
Proof.
  intros Hty Htask. rewrite tasksReducer_changed by done.
  apply array_map_ok. intros t _. unfold changed_callback, replace_by, strict_eq.
  rewrite Htask. by case_bool_decide; case_decide.
Qed.

Lemma tasksReducer_deleted_some (tasks : list Task) (action : Action Task) (task : Task) :
  a_type action = PStr "deleted" →
  a_task action = Some task →
  tasksReducer tasks action = Ok (filter (λ t, t_id t ≠ t_id task) tasks).
Proof.
  intros Hty Htask. rewrite tasksReducer_deleted by done.
  apply array_filter_ok. intros t _. unfold deleted_callback, strict_eq.
  rewrite Htask. f_equal. by do 2 case_bool_decide.
Qed.

(** C9: on ['added'] the reducer returns the input tasks, unchanged and
    in order, followed by the one new task
    [{id: action.id, text: action.text, done: false}]; the result is one
    longer than the input. *)
Theorem added_appends (tasks : list Task) (action : Action Task) :
  a_type action = PStr "added" →
  ∃ tasks', tasksReducer tasks action = Ok tasks' ∧
    take (length tasks) tasks' = tasks ∧
    drop (length tasks) tasks' = [mkTask (a_id action) (a_text action) (PBool false)] ∧
    length tasks' = length tasks + 1.
Proof.
  intros H. eexists. split; [by apply tasksReducer_added|].
  split; [by rewrite take_app_length|].
  split; [by rewrite drop_app_length|].
  by rewrite length_app.
Qed.

Lemma added_appends_witness :
  ∃ tasks',
    tasksReducer initialTasks
      (mkAction (PStr "added") PUndefined PUndefined (PNum 4) (PStr "Buy tea") None)
    = Ok tasks' ∧
    take 3 tasks' = initialTasks ∧
    drop 3 tasks' = [mkTask (PNum 4) (PStr "Buy tea") (PBool false)] ∧
    length tasks' = 4.
Proof.
  apply (added_appends initialTasks
           (mkAction (PStr "added") PUndefined PUndefined (PNum 4) (PStr "Buy tea") None)).
  reflexivity.
Defined.

(** C10: on ['changed'] with a [task] property the reducer returns a
    list of the same length in which, place by place, an element whose
    id is [action.task.id] has become [action.task] and any other element
    is the one of the input; when no element has that id the result is
    the input list, and nothing is raised. *)
Theorem changed_replaces (tasks : list Task) (action : Action Task) (task : Task) :
  a_type action = PStr "changed" →
  a_task action = Some task →
  ∃ tasks', tasksReducer tasks action = Ok tasks' ∧
    length tasks' = length tasks ∧
    (∀ i t, tasks !! i = Some t →
       tasks' !! i = Some (if decide (t_id t = t_id task) then task else t)) ∧
    ((∀ t, t ∈ tasks → t_id t ≠ t_id task) → tasks' = tasks).
Proof.
  intros Hty Htask. eexists. split; [by apply tasksReducer_changed_some|].
  split; [by rewrite length_fmap|]. split.
  - intros i t Hi. by rewrite list_lookup_fmap, Hi.
  - intros Hne. rewrite <-(list_fmap_id tasks) at 2.
    apply list_fmap_ext. intros i t Hi. unfold replace_by.
    case_decide as Heq; [|done].
    destruct (Hne t); [|done]. by eapply list_elem_of_lookup_2.
Qed.

Lemma changed_replaces_witness :
  ∃ tasks',
    tasksReducer initialTasks
      (mkAction (PStr "changed") PUndefined PUndefined PUndefined PUndefined
         (Some (mkTask (PNum 1) (PStr "Visit the temple") (PBool true))))
    = Ok tasks' ∧
    length tasks' = 3 ∧
    (∀ i t, initialTasks !! i = Some t →
       tasks' !! i
       = Some (if decide (t_id t = PNum 1)
               then mkTask (PNum 1) (PStr "Visit the temple") (PBool true) else t)) ∧
    ((∀ t, t ∈ initialTasks → t_id t ≠ PNum 1) → tasks' = initialTasks).
Proof.
  apply (changed_replaces initialTasks
           (mkAction (PStr "changed") PUndefined PUndefined PUndefined PUndefined
              (Some (mkTask (PNum 1) (PStr "Visit the temple") (PBool true))))
           (mkTask (PNum 1) (PStr "Visit the temple") (PBool true))).
  - reflexivity.
  - reflexivity.
Defined.

Example changed_unmatched_ignored :
  tasksReducer initialTasks
    (mkAction (PStr "changed") PUndefined PUndefined PUndefined PUndefined
       (Some (mkTask (PNum 7) (PStr "Sleep") (PBool false))))
  = Ok initialTasks.
Proof. reflexivity. Qed.

(** C8, as stated, fails on the empty list: the action of the Delete
    button has no [task] property, yet [filter] never calls its callback
    on [[]], so the reducer returns [[]] and raises nothing. *)
Lemma deleted_without_task_empty_list :
  let action : Action Task := delete_button_action (mkTask (PNum 0) (PStr "x") (PBool false)) in
  a_type action = PStr "deleted" ∧
  a_task action = None ∧
  tasksReducer [] action = Ok [] ∧
  ¬ ∃ e, tasksReducer [] action = Throw e.
Proof.
  simpl. split; [done|]. split; [done|]. split; [done|].
  intros [e He]. discriminate He.
Qed.

(** C8, amended: on ['deleted'] with a [task] property the result is the
    input list without the tasks whose id is [action.task.id], the others
    in their order; without a [task] property (the shape the Delete
    button dispatches) the reducer fails on every non-empty list with the
    [TypeError] of reading [id] of [undefined] and deletes nothing, and
    on the empty list it returns the empty list. *)
Theorem deleted_branch (tasks : list Task) (action : Action Task) :
  a_type action = PStr "deleted" →
  (∀ task, a_task action = Some task →
     tasksReducer tasks action = Ok (filter (λ t, t_id t ≠ t_id task) tasks)) ∧
  (a_task action = None → tasks ≠ [] →
     tasksReducer tasks action = Throw (TypeError "id")) ∧
  (a_task action = None → tasks = [] → tasksReducer tasks action = Ok []).
Proof.
  intros Hty. split; [|split].
  - intros task Htask. by apply tasksReducer_deleted_some.
  - intros Hnone Hne. rewrite tasksReducer_deleted by done.
    destruct tasks as [|t tasks]; [done|].
    apply array_filter_throw. unfold deleted_callback. by rewrite Hnone.
  - intros _ ->. by rewrite tasksReducer_deleted.
Qed.

Lemma deleted_branch_witness :
  tasksReducer initialTasks
    (mkAction (PStr "deleted") PUndefined PUndefined PUndefined PUndefined
       (Some (mkTask (PNum 1) (PStr "Visit the temple") (PBool false))))
  = Ok [ mkTask (PNum 0) (PStr "Philosopher’s Path") (PBool true);
         mkTask (PNum 2) (PStr "Drink matcha") (PBool false) ] ∧
  tasksReducer initialTasks
    (delete_button_action (mkTask (PNum 1) (PStr "Visit the temple") (PBool false)))
  = Throw (TypeError "id").
Proof.
  split.
  - exact (proj1 (deleted_branch initialTasks
             (mkAction (PStr "deleted") PUndefined PUndefined PUndefined PUndefined
                (Some (mkTask (PNum 1) (PStr "Visit the temple") (PBool false))))
             eq_refl) _ eq_refl).
  - apply (proj1 (proj2 (deleted_branch initialTasks
             (delete_button_action (mkTask (PNum 1) (PStr "Visit the temple") (PBool false)))
             eq_refl))).
    + reflexivity.
    + discriminate.
Defined.

(** ** The container *)

Section ContainerFacts.
Context {S A : Type} (reducer : S → A → result S).

Lemma dispatch_ok (action : A) (store : Store S) (next : S) :
  reducer (getState store) action = Ok next →
  dispatch reducer action store = (Ok (), mkStore next).
Proof. intros H. unfold dispatch, setState. by rewrite H. Qed.

(** A reducer that throws makes [dispatch] throw the same error, and
    the store is the one before the call. *)
Lemma dispatch_throw (action : A) (store : Store S) (e : exn) :
  reducer (getState store) action = Throw e →
  dispatch reducer action store = (Throw e, store).
Proof. intros H. unfold dispatch, setState. by rewrite H. Qed.

Lemma getState_dispatch (action : A) (store : Store S) :
  getState (dispatch reducer action store).2 = step reducer (getState store) action.
Proof. unfold dispatch, setState, step. by destruct (reducer _ _). Qed.

Lemma getState_dispatch_all (actions : list A) (store : Store S) :
  getState (dispatch_all reducer actions store)
  = foldl (step reducer) (getState store) actions.
Proof.
  revert store. induction actions as [|a actions IH]; intros store; [done|].
  unfold dispatch_all in *. simpl. by rewrite IH, getState_dispatch.
Qed.

Lemma replay_foldl_step (actions : list A) (state final : S) :
  replay reducer state actions = Ok final →
  foldl (step reducer) state actions = final.
Proof.
  revert state. induction actions as [|a actions IH]; intros state; simpl.
  - by intros [= ->].
  - unfold step at 2. destruct (reducer state a) as [s'|e]; simpl; [apply IH|done].
Qed.
End ContainerFacts.

(** C2: when the independent sequential replay
    [reducer(...reducer(reducer(initialState, a1), a2)..., an)] of a list
    of actions yields a state, the container of [useMyReducer] holds that
    same state after the actions are dispatched in that order. *)
Theorem dispatch_all_is_replay {S A} (reducer : S → A → result S)
    (initialState : S) (actions : list A) (final : S) :
  replay reducer initialState actions = Ok final →
  let '(store, dispatch) := useMyReducer reducer initialState in
  getState store = initialState ∧
  getState (foldl (λ st a, (dispatch a st).2) store actions) = final.
Proof.
  intros H. simpl. split; [done|].
  change (getState (dispatch_all reducer actions (mkStore initialState)) = final).
  rewrite getState_dispatch_all. by apply replay_foldl_step.
Qed.

Lemma dispatch_all_is_replay_witness :
  let actions : list (Action Task) :=
    [ mkAction (PStr "edited_message") PUndefined (PStr "hi") PUndefined PUndefined None;
      mkAction (PStr "changed_selection") (PNum 1) PUndefined PUndefined PUndefined None;
      mkAction (PStr "edited_message") PUndefined (PStr "yo") PUndefined PUndefined None;
      action_of_type "sent_message" ] in
  let final :=
    {| selectedId := PNum 1; messages := {[ "0" := PStr "hi"; "1" := PStr "" ]} |} in
  let '(store, dispatch) := useMyReducer messengerReducer initialState in
  getState store = initialState ∧
  getState (foldl (λ st a, (dispatch a st).2) store actions) = final.
Proof.
  intros actions final.
  apply (dispatch_all_is_replay messengerReducer initialState actions final).
  reflexivity.
Defined.

(** C1: an action whose [type] is none of the cases of the reducer makes
    the reducer throw [Error('Unknown action: ' + action.type)] instead
    of returning a state, for [messengerReducer] and for [tasksReducer];
    the [dispatch] of such an action throws that error and the store
    holds the state it held before. *)
Theorem unknown_action_raises {T} (state : State) (tasks : list Task)
    (maction : Action T) (taction : Action Task) :
  a_type maction ∉ [PStr "changed_selection"; PStr "edited_message"; PStr "sent_message"] →
  a_type taction ∉ [PStr "added"; PStr "changed"; PStr "deleted"] →
  let merr := Error ("Unknown action: " +:+ to_string (a_type maction)) in
  let terr := Error ("Unknown action: " +:+ to_string (a_type taction)) in
  (messengerReducer state maction = Throw merr ∧
   ∀ store, getState store = state →
     dispatch messengerReducer maction store = (Throw merr, store) ∧
     getState (dispatch messengerReducer maction store).2 = state) ∧
  (tasksReducer tasks taction = Throw terr ∧
   ∀ store, getState store = tasks →
     dispatch tasksReducer taction store = (Throw terr, store) ∧
     getState (dispatch tasksReducer taction store).2 = tasks).
Proof.
  intros Hm Ht merr terr.
  assert (messengerReducer state maction = Throw merr) as Em.
  { apply messengerReducer_default; intros E; apply Hm; rewrite E;
      repeat constructor. }
  assert (tasksReducer tasks taction = Throw terr) as Et.
  { apply tasksReducer_default; intros E; apply Ht; rewrite E;
      repeat constructor. }
  split; (split; [done|]); intros store Hs.
  - assert (dispatch messengerReducer maction store = (Throw merr, store)) as E
      by (apply dispatch_throw; by rewrite Hs).
    by rewrite E.
  - assert (dispatch tasksReducer taction store = (Throw terr, store)) as E
      by (apply dispatch_throw; by rewrite Hs).
    by rewrite E.
Qed.

Lemma unknown_action_raises_witness :
  let merr := Error "Unknown action: bogus" in
  let terr := Error "Unknown action: undefined" in
  (messengerReducer initialState (action_of_type (T:=Task) "bogus") = Throw merr ∧
   ∀ store, getState store = initialState →
     dispatch messengerReducer (action_of_type (T:=Task) "bogus") store = (Throw merr, store) ∧
     getState (dispatch messengerReducer (action_of_type (T:=Task) "bogus") store).2
     = initialState) ∧
  (tasksReducer initialTasks
     (mkAction PUndefined PUndefined PUndefined (PNum 1) PUndefined None) = Throw terr ∧
   ∀ store, getState store = initialTasks →
     dispatch tasksReducer
       (mkAction PUndefined PUndefined PUndefined (PNum 1) PUndefined None) store
     = (Throw terr, store) ∧
     getState (dispatch tasksReducer
       (mkAction PUndefined PUndefined PUndefined (PNum 1) PUndefined None) store).2
     = initialTasks).
Proof.
  apply (unknown_action_raises initialState initialTasks
           (action_of_type (T:=Task) "bogus")
           (mkAction PUndefined PUndefined PUndefined (PNum 1) PUndefined None)).
  - compute_done.
  - compute_done.
Defined.

(** ** Heap level: allocation only extends the heap *)

Lemma alloc_fresh (c : cell) (h : heap) : h !! (alloc c h).1 = None.
Proof. simpl. apply not_elem_of_dom, is_fresh. Qed.

Lemma alloc_lookup (c : cell) (h : heap) : (alloc c h).2 !! (alloc c h).1 = Some c.
Proof. simpl. apply lookup_insert_eq. Qed.

Lemma alloc_subseteq (c : cell) (h : heap) : h ⊆ (alloc c h).2.
Proof. simpl. apply insert_subseteq, (alloc_fresh c h). Qed.

Lemma alloc_lookup_old (c : cell) (h : heap) (l : loc) (c' : cell) :
  h !! l = Some c' → (alloc c h).2 !! l = Some c'.
Proof. intros H. eapply lookup_weaken; [done|apply alloc_subseteq]. Qed.

(** Structured values read from a heap are read from any larger heap. *)

Lemma snap_task_mono (h h' : heap) (l : loc) (t : Task) :
  h ⊆ h' → snap_task h l = Some t → snap_task h' l = Some t.
Proof.
  intros Hsub. unfold snap_task.
  destruct (h !! l) as [c|] eqn:E; [|done].
  by rewrite (lookup_weaken _ _ _ _ E Hsub).
Qed.

Lemma snap_task_list_mono (h h' : heap) (elems : list loc) (ts : list Task) :
  h ⊆ h' → mapM (snap_task h) elems = Some ts → mapM (snap_task h') elems = Some ts.
Proof.
  intros Hsub. rewrite !mapM_Some. intros H.
  eapply Forall2_impl; [exact H|].
  intros l t. by apply snap_task_mono.
Qed.

Lemma snap_tasks_mono (h h' : heap) (l : loc) (ts : list Task) :
  h ⊆ h' → snap_tasks h l = Some ts → snap_tasks h' l = Some ts.
Proof.
  intros Hsub. unfold snap_tasks.
  destruct (h !! l) as [c|] eqn:E; [|done].
  rewrite (lookup_weaken _ _ _ _ E Hsub).
  destruct c; try done. by apply snap_task_list_mono.
Qed.

Lemma snap_state_mono (h h' : heap) (l : loc) (st : State) :
  h ⊆ h' → snap_state h l = Some st → snap_state h' l = Some st.
Proof.
  intros Hsub. unfold snap_state.
  destruct (h !! l) as [c|] eqn:E; [|done].
  rewrite (lookup_weaken _ _ _ _ E Hsub).
  destruct c as [sel lm| | |]; try done.
  destruct (h !! lm) as [c|] eqn:E'; [|done].
  by rewrite (lookup_weaken _ _ _ _ E' Hsub).
Qed.

Lemma snap_action_mono (h h' : heap) (action : Action loc) (act : Action Task) :
  h ⊆ h' → snap_action h action = Some act → snap_action h' action = Some act.
Proof.
  intros Hsub. unfold snap_action.
  destruct (a_task action) as [lt|]; [|done]. simpl.
  destruct (snap_task h lt) as [t|] eqn:E; [|done].
  by rewrite (snap_task_mono _ _ _ _ Hsub E).
Qed.

Lemma snap_state_inv (h : heap) (l : loc) (st : State) :
  snap_state h l = Some st →
  ∃ lm, h !! l = Some (CState (selectedId st) lm) ∧
        h !! lm = Some (CMessages (messages st)).
Proof.
  unfold snap_state. intros H.
  destruct (h !! l) as [[sel lm| | |]|]; try done.
  destruct (h !! lm) as [[|m| |]|] eqn:E; try done.
  injection H as <-. by exists lm.
Qed.

Lemma snap_tasks_inv (h : heap) (l : loc) (ts : list Task) :
  snap_tasks h l = Some ts →
  ∃ elems, h !! l = Some (CTasks elems) ∧ mapM (snap_task h) elems = Some ts.
Proof.
  unfold snap_tasks. intros H.
  destruct (h !! l) as [[| | |elems]|]; try done. by exists elems.
Qed.

Lemma snap_task_inv (h : heap) (l : loc) (t : Task) :
  snap_task h l = Some t → h !! l = Some (CTask t).
Proof.
  unfold snap_task. intros H.
  destruct (h !! l) as [[| |t'|]|]; try done. by injection H as <-.
Qed.

(** ** Heap level: the reducers refine their value-level versions *)

(** Names the address and the heap of an allocation, with what is known
    of them. *)
Ltac name_alloc l h1 Hl Hsub :=
  match goal with
  | |- context [<[fresh (dom ?h) := ?c]> ?h] =>
      is_var h;
      pose proof (alloc_lookup c h) as Hl;
      pose proof (alloc_subseteq c h) as Hsub;
      simpl in Hl, Hsub;
      set (l := fresh (dom h)) in *;
      set (h1 := <[l := c]> h) in *;
      clearbody h1; clearbody l
  end.

Lemma messengerReducerH_refines (h : heap) (state : loc) (action : Action loc) (st : State) :
  snap_state h state = Some st →
  ∃ r h', messengerReducerH state action h = Some (r, h') ∧ h ⊆ h' ∧
          snap_result snap_state h' r = Some (messengerReducer st action).
Proof.
  intros Hsnap. destruct (snap_state_inv _ _ _ Hsnap) as (lm & Hstate & Hmsgs).
  destruct st as [sel m]; simpl in *.
  unfold messengerReducerH, messengerReducer, read_state, read_messages.
  rewrite Hstate. simpl. rewrite Hmsgs. simpl.
  destruct (strict_eq (a_type action) (PStr "changed_selection")).
  { name_alloc l h1 Hl Hsub. eexists _, _. split; [done|]. split; [done|].
    simpl. unfold snap_state. rewrite Hl.
    by rewrite (lookup_weaken _ _ _ _ Hmsgs Hsub). }
  destruct (strict_eq (a_type action) (PStr "edited_message")).
  { name_alloc lm1 h1 Hlm1 Hsub1. name_alloc l h2 Hl Hsub2.
    eexists _, _. split; [done|]. split; [by etrans|].
    simpl. unfold snap_state. rewrite Hl.
    by rewrite (lookup_weaken _ _ _ _ Hlm1 Hsub2). }
  destruct (strict_eq (a_type action) (PStr "sent_message")).
  { name_alloc lm1 h1 Hlm1 Hsub1. name_alloc l h2 Hl Hsub2.
    eexists _, _. split; [done|]. split; [by etrans|].
    simpl. unfold snap_state. rewrite Hl.
    by rewrite (lookup_weaken _ _ _ _ Hlm1 Hsub2). }
  eexists _, _. by split; [|split].
Qed.

Section ArrayRefinement.
Context (h : heap).

Let is_task (l : loc) (t : Task) : Prop := snap_task h l = Some t.

Lemma array_map_refines (f : loc → hres loc) (g : Task → result Task)
    (elems : list loc) (ts : list Task) :
  (∀ l t, is_task l t → ∃ r, f l = Some r ∧ res_rel is_task r (g t)) →
  Forall2 is_task elems ts →
  ∃ r, array_map f elems = Some r ∧ res_rel (Forall2 is_task) r (array_map g ts).
Proof.
  intros Hf. induction 1 as [|l t elems ts Hl _ IH]; simpl.
  { eexists. split; [done|]. simpl. constructor. }
  destruct (Hf l t Hl) as (r & -> & Hr).
  destruct r as [l'|e], (g t) as [t'|e']; simpl in *; try done.
  - destruct IH as (rs & -> & Hrs).
    destruct rs as [ls|e], (array_map g ts) as [ts'|e']; simpl in *; try done.
    + eexists. split; [done|]. simpl. by constructor.
    + eexists. by split.
  - eexists. by split.
Qed.

Lemma array_filter_refines (f : loc → hres bool) (g : Task → result bool)
    (elems : list loc) (ts : list Task) :
  (∀ l t, is_task l t → ∃ r, f l = Some r ∧ res_rel eq r (g t)) →
  Forall2 is_task elems ts →
  ∃ r, array_filter f elems = Some r ∧ res_rel (Forall2 is_task) r (array_filter g ts).
Proof.
  intros Hf. induction 1 as [|l t elems ts Hl _ IH]; simpl.
  { eexists. split; [done|]. simpl. constructor. }
  destruct (Hf l t Hl) as (r & -> & Hr).
  destruct r as [b|e], (g t) as [b'|e']; simpl in *; try done.
  - subst b'. destruct IH as (rs & -> & Hrs).
    destruct rs as [ls|e], (array_filter g ts) as [ts'|e']; simpl in *; try done.
    + eexists. split; [done|]. simpl. destruct b; [by constructor|done].
    + eexists. by split.
  - eexists. by split.
Qed.

Context (action : Action loc) (act : Action Task).
Hypothesis Hact : snap_action h action = Some act.

Lemma snap_action_fields :
  a_type act = a_type action ∧ a_id act = a_id action ∧ a_text act = a_text action ∧
  match a_task action with
  | None => a_task act = None
  | Some lt => ∃ t, is_task lt t ∧ a_task act = Some t
  end.
Proof.
  revert Hact. unfold snap_action, is_task.
  destruct (a_task action) as [lt|]; simpl.
  - destruct (snap_task h lt) as [t|]; simpl; [|done].
    intros [= <-]. simpl. repeat split. by exists t.
  - by intros [= <-].
Qed.

Lemma changed_callbackH_refines (l : loc) (t : Task) :
  is_task l t →
  ∃ r, changed_callbackH h action l = Some r ∧ res_rel is_task r (changed_callback act t).
Proof.
  intros Hl. destruct snap_action_fields as (_ & _ & _ & Htask).
  unfold changed_callbackH, changed_callback, action_task_idH, read_task.
  rewrite (snap_task_inv _ _ _ Hl). simpl.
  destruct (a_task action) as [lt|].
  - destruct Htask as (ta & Hta & ->). rewrite (snap_task_inv _ _ _ Hta). simpl.
    eexists. split; [done|]. simpl. by destruct (strict_eq _ _).
  - rewrite Htask. eexists. by split.
Qed.

Lemma deleted_callbackH_refines (l : loc) (t : Task) :
  is_task l t →
  ∃ r, deleted_callbackH h action l = Some r ∧ res_rel eq r (deleted_callback act t).
Proof.
  intros Hl. destruct snap_action_fields as (_ & _ & _ & Htask).
  unfold deleted_callbackH, deleted_callback, action_task_idH, read_task.
  rewrite (snap_task_inv _ _ _ Hl). simpl.
  destruct (a_task action) as [lt|].
  - destruct Htask as (ta & Hta & ->). rewrite (snap_task_inv _ _ _ Hta). simpl.
    eexists. by split.
  - rewrite Htask. eexists. by split.
Qed.
End ArrayRefinement.

Lemma snap_result_tasks (h : heap) (l : loc) (elems : list loc) (ts : list Task) :
  h !! l = Some (CTasks elems) →
  Forall2 (λ l' t, snap_task h l' = Some t) elems ts →
  snap_result snap_tasks h (Ok l) = Some (Ok ts).
Proof.
  intros Hl Helems. simpl. unfold snap_tasks. rewrite Hl.
  apply mapM_Some in Helems. by rewrite Helems.
Qed.

Lemma tasksReducerH_refines (h : heap) (tasks : loc) (action : Action loc)
    (ts : list Task) (act : Action Task) :
  snap_tasks h tasks = Some ts →
  snap_action h action = Some act →
  ∃ r h', tasksReducerH tasks action h = Some (r, h') ∧ h ⊆ h' ∧
          snap_result snap_tasks h' r = Some (tasksReducer ts act).
Proof.
  intros Hsnap Hact.
  destruct (snap_tasks_inv _ _ _ Hsnap) as (elems & Htasks & Helems).
  destruct (snap_action_fields _ _ _ Hact) as (Hty & Hid & Htext & _).
  apply mapM_Some in Helems.
  unfold tasksReducerH, tasksReducer, read_tasks.
  rewrite Htasks, Hty, Hid, Htext. simpl.
  destruct (strict_eq (a_type action) (PStr "added")).
  { name_alloc lnew h1 Hlt Hsub1. name_alloc l h2 Hl Hsub2.
    eexists _, _. split; [done|]. split; [by etrans|].
    eapply snap_result_tasks; [done|]. apply Forall2_app.
    - eapply Forall2_impl; [exact Helems|]. intros l' t'.
      apply snap_task_mono. by etrans.
    - repeat constructor. unfold snap_task.
      by rewrite (lookup_weaken _ _ _ _ Hlt Hsub2). }
  destruct (strict_eq (a_type action) (PStr "changed")).
  { destruct (array_map_refines h _ _ _ _
                (changed_callbackH_refines h action act Hact) Helems) as (r & -> & Hr).
    destruct r as [elems'|e], (array_map (changed_callback act) ts) as [ts'|e'];
      simpl in *; try done.
    - name_alloc l h1 Hl Hsub. eexists _, _. split; [done|]. split; [done|].
      eapply snap_result_tasks; [done|].
      eapply Forall2_impl; [exact Hr|]. intros l' t'.
      by apply snap_task_mono.
    - subst e'. eexists _, _. by split; [|split]. }
  destruct (strict_eq (a_type action) (PStr "deleted")).
  { destruct (array_filter_refines h _ _ _ _
                (deleted_callbackH_refines h action act Hact) Helems) as (r & -> & Hr).
    destruct r as [elems'|e], (array_filter (deleted_callback act) ts) as [ts'|e'];
      simpl in *; try done.
    - name_alloc l h1 Hl Hsub. eexists _, _. split; [done|]. split; [done|].
      eapply snap_result_tasks; [done|].
      eapply Forall2_impl; [exact Hr|]. intros l' t'.
      by apply snap_task_mono.
    - subst e'. eexists _, _. by split; [|split]. }
  eexists _, _. by split; [|split].
Qed.

(** ** Purity *)

(** A call that refines a function of the structured value of its
    argument, on every heap that extends [h], is pure on [h]. *)
Lemma refinement_pure_call {V W} (snap_arg : heap → loc → option V)
    (snap_res : heap → loc → option W)
    (call : heap → option (result loc * heap)) (arg : loc) (h : heap)
    (v : V) (out : result W) :
  (∀ h1 h2, h1 ⊆ h2 → snap_arg h1 arg = Some v → snap_arg h2 arg = Some v) →
  (∀ h1 h2 r, h1 ⊆ h2 → snap_result snap_res h1 r = Some out →
              snap_result snap_res h2 r = Some out) →
  (∀ h0, h ⊆ h0 → snap_arg h0 arg = Some v →
     ∃ r h', call h0 = Some (r, h') ∧ h0 ⊆ h' ∧ snap_result snap_res h' r = Some out) →
  snap_arg h arg = Some v →
  pure_call snap_arg snap_res call arg h.
Proof.
  intros Harg Hres Hcall Hv.
  destruct (Hcall h) as (r1 & h1 & E1 & Hsub1 & Hr1); [done|done|].
  pose proof (Harg _ _ Hsub1 Hv) as Hv1.
  destruct (Hcall h1) as (r2 & h2 & E2 & Hsub2 & Hr2); [done|done|].
  pose proof (Harg _ _ Hsub2 Hv1) as Hv2.
  exists r1, h1, r2, h2, out. rewrite Hv, Hv1, Hv2.
  repeat split; try done. by eapply Hres.
Qed.

Lemma snap_result_mono {V} (snap : heap → loc → option V) (h h' : heap)
    (r : result loc) (out : result V) :
  (∀ l v, snap h l = Some v → snap h' l = Some v) →
  snap_result snap h r = Some out → snap_result snap h' r = Some out.
Proof.
  intros Hmono. destruct r as [l|e]; simpl; [|done].
  destruct (snap h l) as [v|] eqn:E; [|done]. by rewrite (Hmono _ _ E).
Qed.

(** C7: both reducers are pure.  On a heap where [state] (resp. [tasks])
    refers to a well-formed state (resp. task array), a call returns and
    leaves every existing cell as it was, so the argument still reads as
    its snapshot taken before the call; and calling the reducer a second
    time on the same arguments gives an outcome structurally equal to the
    first one. *)
Theorem reducers_pure (h : heap) (state tasks : loc) (maction taction : Action loc)
    (st : State) (ts : list Task) (act : Action Task) :
  snap_state h state = Some st →
  snap_tasks h tasks = Some ts →
  snap_action h taction = Some act →
  pure_call snap_state snap_state (messengerReducerH state maction) state h ∧
  pure_call snap_tasks snap_tasks (tasksReducerH tasks taction) tasks h.
Proof.
  intros Hst Hts Hact. split.
  - apply (refinement_pure_call _ _ _ _ _ st (messengerReducer st maction)); [| | |done].
    + intros h1 h2 Hsub. by apply snap_state_mono.
    + intros h1 h2 r Hsub. apply snap_result_mono. intros l v.
      by apply snap_state_mono.
    + intros h0 _. apply messengerReducerH_refines.
  - apply (refinement_pure_call _ _ _ _ _ ts (tasksReducer ts act)); [| | |done].
    + intros h1 h2 Hsub. by apply snap_tasks_mono.
    + intros h1 h2 r Hsub. apply snap_result_mono. intros l v.
      by apply snap_tasks_mono.
    + intros h0 Hsub Hts0. apply tasksReducerH_refines; [done|].
      by eapply snap_action_mono.
Qed.

Lemma reducers_pure_witness :
  pure_call snap_state snap_state
    (messengerReducerH 1%positive
       (mkAction (PStr "edited_message") PUndefined (PStr "hi") PUndefined PUndefined None))
    1%positive example_heap ∧
  pure_call snap_tasks snap_tasks
    (tasksReducerH 6%positive
       (mkAction (PStr "changed") PUndefined PUndefined PUndefined PUndefined
          (Some 7%positive)))
    6%positive example_heap.
Proof.
  apply (reducers_pure example_heap 1%positive 6%positive
           (mkAction (PStr "edited_message") PUndefined (PStr "hi") PUndefined PUndefined None)
           (mkAction (PStr "changed") PUndefined PUndefined PUndefined PUndefined
              (Some 7%positive))
           initialState initialTasks
           (mkAction (PStr "changed") PUndefined PUndefined PUndefined PUndefined
              (Some (mkTask (PNum 1) (PStr "Visit the temple") (PBool true))))).
  - reflexivity.
  - reflexivity.
  - reflexivity.
Defined.

(** X20: on [changed_selection] the new state object holds the very
    reference to the message map that the old one holds: the map is
    shared, not copied; the new object is at an address that was unused,
    and the old state object is left as it was. *)
Lemma messengerReducerH_shares_messages (h : heap) (state : loc) (action : Action loc)
    (sel : prim) (lm : loc) :
  h !! state = Some (CState sel lm) →
  a_type action = PStr "changed_selection" →
  ∃ l h', messengerReducerH state action h = Some (Ok l, h') ∧
          h !! l = None ∧
          h' !! l = Some (CState (a_contactId action) lm) ∧
          h' !! state = Some (CState sel lm).
Proof.
  intros Hstate Hty. unfold messengerReducerH, read_state. rewrite Hty, Hstate. simpl.
  pose proof (alloc_fresh (CState (a_contactId action) lm) h) as Hfresh. simpl in Hfresh.
  name_alloc l h1 Hl Hsub. eexists _, _. split; [done|]. split; [done|]. split; [done|].
  by eapply lookup_weaken.
Qed.

(** Property names of distinct integer ids are distinct, while the number
    [1] and the string ['1'] name the same property. *)
Lemma to_string_num_inj (a b : Z) : to_string (PNum a) = to_string (PNum b) → a = b.
Proof. simpl. apply (inj pretty). Qed.

Example to_string_collision : to_string (PNum 1) = to_string (PStr "1").
Proof. reflexivity. Qed.

(** ** Runs on the example heap *)

Example messengerReducerH_run :
  match messengerReducerH 1%positive
          (mkAction (PStr "edited_message") PUndefined (PStr "hi") PUndefined PUndefined None)
          example_heap with
  | Some (Ok l, h') =>
      snap_state h' l = Some {| selectedId := PNum 0; messages := {[ "0" := PStr "hi" ]} |} ∧
      snap_state h' 1%positive = Some initialState ∧
      l ≠ 1%positive
  | _ => False
  end.
Proof. vm_compute. by repeat split. Qed.

Example tasksReducerH_delete_button_run :
  tasksReducerH 6%positive
    (delete_button_action (mkTask (PNum 1) (PStr "Visit the temple") (PBool false)))
    example_heap
  = Some (Throw (TypeError "id"), example_heap).
Proof. reflexivity. Qed.

(** * Further properties of the messenger *)

Lemma replay_app {S A} (reducer : S → A → result S) (state : S) (l1 l2 : list A) :
  replay reducer state (l1 ++ l2)%list
  = (s ← replay reducer state l1 ; replay reducer s l2).
Proof.
  revert state. induction l1 as [|a l1 IH]; intros state; simpl; [done|].
  destruct (reducer state a) as [s'|e]; simpl; [apply IH|done].
Qed.

Lemma messengerReducer_inv {T} (state state' : State) (action : Action T) :
  messengerReducer state action = Ok state' →
  (a_type action = PStr "changed_selection" ∧
   state' = {| selectedId := a_contactId action; messages := messages state |}) ∨
  (∃ v, state' = {| selectedId := selectedId state;
                    messages := <[to_string (selectedId state) := v]> (messages state) |} ∧
        ((a_type action = PStr "edited_message" ∧ v = a_message action) ∨
         (a_type action = PStr "sent_message" ∧ v = PStr ""))).
Proof.
  unfold messengerReducer.
  destruct (strict_eq _ (PStr "changed_selection")) eqn:E1.
  { intros [= <-]. left. by apply strict_eq_true in E1. }
  destruct (strict_eq _ (PStr "edited_message")) eqn:E2.
  { intros [= <-]. right. eexists. split; [done|]. left. by apply strict_eq_true in E2. }
  destruct (strict_eq _ (PStr "sent_message")) eqn:E3; [|done].
  intros [= <-]. right. eexists. split; [done|]. right. by apply strict_eq_true in E3.
Qed.

(** X1: after [edited_message] the message the component reads for the
    selected contact, [state.messages[state.selectedId]], is the message
    of the action; after [sent_message] it is the empty string. *)
Theorem message_read_back {T} (state : State) (action : Action T) :
  a_type action = PStr "edited_message" ∨ a_type action = PStr "sent_message" →
  ∃ state', messengerReducer state action = Ok state' ∧
    current_message state'
    = if strict_eq (a_type action) (PStr "sent_message") then PStr "" else a_message action.
Proof.
  intros [H|H].
  - eexists. split; [by apply messengerReducer_edited_message|].
    unfold current_message. simpl. rewrite lookup_insert_eq. by rewrite H.
  - eexists. split; [by apply messengerReducer_sent_message|].
    unfold current_message. simpl. rewrite lookup_insert_eq. by rewrite H.
Qed.

Lemma message_read_back_witness :
  ∃ state',
    messengerReducer initialState (messenger_event_action (T:=Task) (ChangeMessage "hey"))
    = Ok state' ∧
    current_message state' = PStr "hey".
Proof.
  apply (message_read_back initialState
           (messenger_event_action (T:=Task) (ChangeMessage "hey"))).
  left. reflexivity.
Defined.

(** X2: of two edits in a row only the last one counts, and an edit
    followed by a send gives what the send alone gives. *)
Theorem last_write_wins {T} (state : State) (first second : Action T) :
  a_type first = PStr "edited_message" →
  a_type second = PStr "edited_message" ∨ a_type second = PStr "sent_message" →
  replay messengerReducer state [first; second] = messengerReducer state second.
Proof.
  intros H1 [H2|H2]; simpl; rewrite (messengerReducer_edited_message _ _ H1); simpl.
  - rewrite !messengerReducer_edited_message by done. simpl.
    by rewrite insert_insert_eq.
  - rewrite !messengerReducer_sent_message by done. simpl.
    by rewrite insert_insert_eq.
Qed.

Lemma last_write_wins_witness :
  replay messengerReducer initialState
    [ messenger_event_action (T:=Task) (ChangeMessage "draft");
      messenger_event_action ClickSend ]
  = messengerReducer initialState (messenger_event_action (T:=Task) ClickSend).
Proof.
  apply (last_write_wins initialState).
  - reflexivity.
  - right. reflexivity.
Defined.

(** X3: whatever the action, a transition leaves the message of every
    key other than the selected one as it was: only the draft of the
    selected contact can change. *)
Theorem other_drafts_untouched {T} (state state' : State) (action : Action T) (k : string) :
  messengerReducer state action = Ok state' →
  k ≠ to_string (selectedId state) →
  messages state' !! k = messages state !! k.
Proof.
  intros H Hk. destruct (messengerReducer_inv _ _ _ H) as [[_ ->]|(v & -> & _)]; simpl.
  - done.
  - by apply lookup_insert_ne.
Qed.

Lemma other_drafts_untouched_witness :
  messages {| selectedId := PNum 1;
              messages := {[ "0" := PStr "hi"; "1" := PStr "" ]} |} !! "0"
  = messages {| selectedId := PNum 1; messages := {[ "0" := PStr "hi" ]} |} !! "0".
Proof.
  apply (other_drafts_untouched
           {| selectedId := PNum 1; messages := {[ "0" := PStr "hi" ]} |} _
           (action_of_type (T:=Task) "sent_message") "0").
  - reflexivity.
  - discriminate.
Defined.

(** X4: a transition never removes a key of [messages], and the only key
    it can add is the one of the selected contact. *)
Theorem message_keys_grow {T} (state state' : State) (action : Action T) :
  messengerReducer state action = Ok state' →
  dom (messages state) ⊆ dom (messages state') ∧
  dom (messages state') ⊆ dom (messages state) ∪ {[ to_string (selectedId state) ]}.
Proof.
  intros H. destruct (messengerReducer_inv _ _ _ H) as [[_ E]|(v & E & _)];
    subst state'; simpl.
  - set_solver.
  - rewrite dom_insert_L. split; [apply union_subseteq_r|].
    by rewrite (comm_L (∪)).
Qed.

Lemma message_keys_grow_witness :
  dom (messages {| selectedId := PNum 1; messages := {[ "0" := PStr "hi" ]} |})
  ⊆ dom (messages {| selectedId := PNum 1;
                     messages := {[ "0" := PStr "hi"; "1" := PStr "" ]} |}) ∧
  dom (messages {| selectedId := PNum 1;
                   messages := {[ "0" := PStr "hi"; "1" := PStr "" ]} |})
  ⊆ dom (messages {| selectedId := PNum 1; messages := {[ "0" := PStr "hi" ]} |})
    ∪ {[ to_string (selectedId
           {| selectedId := PNum 1; messages := {[ "0" := PStr "hi" ]} |}) ]}.
Proof.
  apply (message_keys_grow
           {| selectedId := PNum 1; messages := {[ "0" := PStr "hi" ]} |} _
           (action_of_type (T:=Task) "sent_message")).
  reflexivity.
Defined.

(** X5: drafts are kept per contact.  Click contact [a], type [m], click
    another contact [b], type and send there, click [a] again: the
    textarea of [a] shows [m] again. *)
Theorem draft_kept_across_selection {T} (state : State) (a b : Contact) (m m' : string) :
  to_string (c_id a) ≠ to_string (c_id b) →
  ∃ final,
    replay (messengerReducer (T:=T)) state
      (messenger_event_action <$>
         [ClickContact a; ChangeMessage m; ClickContact b; ChangeMessage m';
          ClickSend; ClickContact a])
    = Ok final ∧
    selectedId final = c_id a ∧
    current_message final = PStr m.
Proof.
  intros Hab. eexists. split; [reflexivity|]. split; [done|].
  unfold current_message. simpl.
  by rewrite !lookup_insert_ne, lookup_insert_eq by done.
Qed.

Lemma draft_kept_across_selection_witness :
  ∃ final,
    replay (messengerReducer (T:=Task)) initialState
      (messenger_event_action <$>
         [ClickContact (mkContact (PNum 1) (PStr "Alice") (PStr "alice@mail.com"));
          ChangeMessage "see you";
          ClickContact (mkContact (PNum 2) (PStr "Bob") (PStr "bob@mail.com"));
          ChangeMessage "hello Bob";
          ClickSend;
          ClickContact (mkContact (PNum 1) (PStr "Alice") (PStr "alice@mail.com"))])
    = Ok final ∧
    selectedId final = PNum 1 ∧
    current_message final = PStr "see you".
Proof.
  apply (draft_kept_across_selection initialState
           (mkContact (PNum 1) (PStr "Alice") (PStr "alice@mail.com"))
           (mkContact (PNum 2) (PStr "Bob") (PStr "bob@mail.com"))).
  discriminate.
Defined.

Lemma current_contact_found (state : State) (c : Contact) :
  c ∈ contacts → c_id c = selectedId state →
  ∃ c', current_contact state = Some c' ∧ c' ∈ contacts ∧ c_id c' = selectedId state.
Proof.
  intros Hc Hid. unfold current_contact.
  destruct (List.find _ contacts) as [c'|] eqn:E.
  - apply List.find_some in E as [Hin Heq]. exists c'. split; [done|].
    split; [by apply list_elem_of_In|]. by apply strict_eq_true in Heq.
  - apply list_elem_of_In in Hc. apply (List.find_none _ _ E c) in Hc.
    apply strict_eq_false in Hc. by destruct Hc.
Qed.

Lemma messenger_wf_step {T} (state state' : State) (ev : MessengerEvent) :
  messenger_wf state → messenger_event_enabled ev →
  messengerReducer (T:=T) state (messenger_event_action ev) = Ok state' →
  messenger_wf state'.
Proof.
  intros [Hsel Hmsg] Hev. destruct ev as [c|v|]; simpl; intros [= <-]; split; simpl.
  - by exists c.
  - done.
  - done.
  - intros k w. destruct (decide (k = to_string (selectedId state))) as [->|Hk].
    + rewrite lookup_insert_eq. intros [= <-]. by exists v.
    + rewrite lookup_insert_ne by done. apply Hmsg.
  - done.
  - intros k w. destruct (decide (k = to_string (selectedId state))) as [->|Hk].
    + rewrite lookup_insert_eq. intros [= <-]. by exists "".
    + rewrite lookup_insert_ne by done. apply Hmsg.
Qed.

Lemma messenger_wf_replay {T} (events : list MessengerEvent) (state : State) :
  messenger_wf state → Forall messenger_event_enabled events →
  ∃ state', replay (messengerReducer (T:=T)) state (messenger_event_action <$> events)
            = Ok state' ∧ messenger_wf state'.
Proof.
  intros Hwf Hen. revert state Hwf.
  induction Hen as [|ev events Hev _ IH]; intros state Hwf; simpl; [by exists state|].
  assert (∃ s1, messengerReducer (T:=T) state (messenger_event_action ev) = Ok s1)
    as [s1 E1] by (destruct ev; by eexists).
  rewrite E1. simpl. apply IH. by eapply messenger_wf_step.
Qed.

(** X6: whatever the user does with the component (clicking contacts of
    the list, typing, sending), starting from [initialState], every
    action is accepted, the selected id stays the id of one of the
    [contacts], so that [contacts.find] finds the contact and the
    component never fails on [contact.id], and the message handed to the
    textarea is a string or [undefined]. *)
Theorem messenger_always_renders {T} (events : list MessengerEvent) :
  Forall messenger_event_enabled events →
  ∃ state props,
    replay (messengerReducer (T:=T)) initialState (messenger_event_action <$> events)
    = Ok state ∧
    DISPATCH_ACTIONS_FROM_EVENT_HANDLERS state = Ok props ∧
    chat_contact props ∈ contacts ∧
    chat_key props = selectedId state ∧
    (chat_message props = PUndefined ∨ ∃ s, chat_message props = PStr s).
Proof.
  intros Hen.
  destruct (messenger_wf_replay (T:=T) events initialState) as (state & E & Hsel & Hmsg);
    [|done|].
  { split.
    - exists (mkContact (PNum 0) (PStr "Taylor") (PStr "taylor@mail.com")).
      split; [left|done].
    - intros k v. unfold initialState. simpl.
      destruct (decide (k = "0")) as [->|Hk].
      + rewrite lookup_singleton_eq. intros [= <-]. by exists "".
      + by rewrite lookup_singleton_ne. }
  destruct Hsel as (c & Hc & Hid).
  destruct (current_contact_found state c Hc Hid) as (c' & Hfind & Hc' & Hid').
  exists state. eexists. split; [done|].
  unfold DISPATCH_ACTIONS_FROM_EVENT_HANDLERS. rewrite Hfind.
  split; [done|]. simpl. split; [done|]. split; [done|].
  unfold current_message.
  destruct (messages state !! to_string (selectedId state)) as [v|] eqn:Ev; simpl.
  - right. by eapply Hmsg.
  - by left.
Qed.

Lemma messenger_always_renders_witness :
  ∃ state props,
    replay (messengerReducer (T:=Task)) initialState
      (messenger_event_action <$>
         [ChangeMessage "hi";
          ClickContact (mkContact (PNum 2) (PStr "Bob") (PStr "bob@mail.com"));
          ClickSend])
    = Ok state ∧
    DISPATCH_ACTIONS_FROM_EVENT_HANDLERS state = Ok props ∧
    chat_contact props ∈ contacts ∧
    chat_key props = selectedId state ∧
    (chat_message props = PUndefined ∨ ∃ s, chat_message props = PStr s).
Proof.
  apply (messenger_always_renders
           [ChangeMessage "hi";
            ClickContact (mkContact (PNum 2) (PStr "Bob") (PStr "bob@mail.com"));
            ClickSend]).
  repeat constructor.
Defined.

(** X7: the reducer does not check [contactId].  A [changed_selection]
    to an id that no contact has is accepted, and on the state it returns
    the component fails: [contacts.find] gives [undefined] and
    [contact.id] is a [TypeError]. *)
Theorem unknown_contact_breaks_render {T} (state : State) (action : Action T) :
  a_type action = PStr "changed_selection" →
  Forall (λ c, c_id c ≠ a_contactId action) contacts →
  ∃ state', messengerReducer state action = Ok state' ∧
    DISPATCH_ACTIONS_FROM_EVENT_HANDLERS state' = Throw (TypeError "id").
Proof.
  intros Hty Hno. rewrite Forall_forall in Hno. eexists. split; [by apply messengerReducer_changed_selection|].
  unfold DISPATCH_ACTIONS_FROM_EVENT_HANDLERS, current_contact.
  destruct (List.find _ contacts) as [c|] eqn:E; [|done].
  apply List.find_some in E as [Hin Heq]. apply strict_eq_true in Heq. simpl in Heq.
  destruct (Hno c); [by apply list_elem_of_In|done].
Qed.

Lemma unknown_contact_breaks_render_witness :
  ∃ state',
    messengerReducer initialState
      (mkAction (T:=Task) (PStr "changed_selection") (PNum 7)
         PUndefined PUndefined PUndefined None)
    = Ok state' ∧
    DISPATCH_ACTIONS_FROM_EVENT_HANDLERS state' = Throw (TypeError "id").
Proof.
  apply (unknown_contact_breaks_render initialState
           (mkAction (T:=Task) (PStr "changed_selection") (PNum 7)
              PUndefined PUndefined PUndefined None)).
  - reflexivity.
  - compute_done.
Defined.

(** * Further properties of the task list *)

Lemma tasksReducer_changed_none (tasks : list Task) (action : Action Task) :
  a_type action = PStr "changed" →
  a_task action = None →
  tasksReducer tasks action
  = match tasks with [] => Ok [] | _ :: _ => Throw (TypeError "id") end.
Proof.
  intros Hty Hnone. rewrite tasksReducer_changed by done.
  destruct tasks as [|t tasks]; [done|].
  apply array_map_throw. unfold changed_callback. by rewrite Hnone.
Qed.

(** X8: a ['changed'] action without a [task] property fails on every
    non-empty list with the [TypeError] of reading [id] of [undefined];
    on the empty list [map] calls nothing and the result is the empty
    list. *)
Theorem changed_without_task (tasks : list Task) (action : Action Task) :
  a_type action = PStr "changed" →
  a_task action = None →
  tasksReducer tasks action
  = match tasks with [] => Ok [] | _ :: _ => Throw (TypeError "id") end.
Proof. apply tasksReducer_changed_none. Qed.

Lemma changed_without_task_witness :
  tasksReducer initialTasks (action_of_type "changed") = Throw (TypeError "id").
Proof.
  apply (changed_without_task initialTasks (action_of_type "changed")); reflexivity.
Defined.

Lemma replace_by_id (task t : Task) : t_id (replace_by task t) = t_id t.
Proof. unfold replace_by. by case_decide. Qed.

Lemma replace_by_idemp (task t : Task) :
  replace_by task (replace_by task t) = replace_by task t.
Proof. unfold replace_by. by repeat case_decide. Qed.

Lemma fmap_replace_by_ids (task : Task) (tasks : list Task) :
  t_id <$> (replace_by task <$> tasks) = t_id <$> tasks.
Proof.
  rewrite <-list_fmap_compose. apply list_fmap_ext. intros i t _. apply replace_by_id.
Qed.

(** X9: a ['changed'] action never changes the ids of the list: the
    sequence of ids of the result is the sequence of ids of the input,
    so the keys [key={task.id}] of the rendered items stay the same. *)
Theorem changed_keeps_ids (tasks : list Task) (action : Action Task) (task : Task) :
  a_type action = PStr "changed" →
  a_task action = Some task →
  ∃ tasks', tasksReducer tasks action = Ok tasks' ∧
    t_id <$> tasks' = t_id <$> tasks.
Proof.
  intros Hty Htask. eexists. split; [by apply tasksReducer_changed_some|].
  apply fmap_replace_by_ids.
Qed.

Lemma changed_keeps_ids_witness :
  ∃ tasks',
    tasksReducer initialTasks
      (mkAction (PStr "changed") PUndefined PUndefined PUndefined PUndefined
         (Some (mkTask (PNum 2) (PStr "Drink sencha") (PBool true))))
    = Ok tasks' ∧
    t_id <$> tasks' = t_id <$> initialTasks.
Proof.
  apply (changed_keeps_ids initialTasks
           (mkAction (PStr "changed") PUndefined PUndefined PUndefined PUndefined
              (Some (mkTask (PNum 2) (PStr "Drink sencha") (PBool true))))
           (mkTask (PNum 2) (PStr "Drink sencha") (PBool true))); reflexivity.
Defined.

Lemma filter_id_idemp (task : Task) (tasks : list Task) :
  filter (λ t, t_id t ≠ t_id task) (filter (λ t, t_id t ≠ t_id task) tasks)
  = filter (λ t, t_id t ≠ t_id task) tasks.
Proof.
  induction tasks as [|t tasks IH]; [done|].
  rewrite (filter_cons _ t tasks). case_decide; [|done].
  rewrite filter_cons. case_decide; [|done]. by rewrite IH.
Qed.

(** X10: ['changed'] and ['deleted'] are idempotent: dispatching the
    same action a second time gives what dispatching it once gives, be it
    a list or the [TypeError]. *)
Theorem changed_deleted_idempotent (tasks : list Task) (action : Action Task) :
  a_type action = PStr "changed" ∨ a_type action = PStr "deleted" →
  replay tasksReducer tasks [action; action] = tasksReducer tasks action.
Proof.
  intros Hty. simpl. destruct (a_task action) as [task|] eqn:Htask.
  - destruct Hty as [Hty|Hty].
    + rewrite (tasksReducer_changed_some tasks _ _ Hty Htask). simpl.
      rewrite (tasksReducer_changed_some _ _ _ Hty Htask). simpl.
      rewrite <-list_fmap_compose. f_equal. apply list_fmap_ext.
      intros i t _. apply replace_by_idemp.
    + rewrite (tasksReducer_deleted_some tasks _ _ Hty Htask). simpl.
      rewrite (tasksReducer_deleted_some _ _ _ Hty Htask). simpl.
      by rewrite filter_id_idemp.
  - destruct tasks as [|t tasks], Hty as [Hty|Hty].
    + rewrite (tasksReducer_changed_none [] _ Hty Htask). simpl.
      by rewrite (tasksReducer_changed_none [] _ Hty Htask).
    + rewrite (tasksReducer_deleted [] _ Hty). simpl.
      by rewrite (tasksReducer_deleted [] _ Hty).
    + by rewrite (tasksReducer_changed_none _ _ Hty Htask).
    + rewrite (tasksReducer_deleted _ _ Hty).
      rewrite (array_filter_throw _ (TypeError "id")); [done|].
      unfold deleted_callback. by rewrite Htask.
Qed.

Lemma changed_deleted_idempotent_witness :
  replay tasksReducer initialTasks
    [ mkAction (PStr "deleted") PUndefined PUndefined PUndefined PUndefined
        (Some (mkTask (PNum 0) PUndefined PUndefined));
      mkAction (PStr "deleted") PUndefined PUndefined PUndefined PUndefined
        (Some (mkTask (PNum 0) PUndefined PUndefined)) ]
  = tasksReducer initialTasks
      (mkAction (PStr "deleted") PUndefined PUndefined PUndefined PUndefined
         (Some (mkTask (PNum 0) PUndefined PUndefined))).
Proof.
  apply (changed_deleted_idempotent initialTasks
           (mkAction (PStr "deleted") PUndefined PUndefined PUndefined PUndefined
              (Some (mkTask (PNum 0) PUndefined PUndefined)))).
  right. reflexivity.
Defined.

(** X11: adding a task under an id that no task of the list has, then
    deleting by that id, gives back the list as it was. *)
Theorem added_then_deleted (tasks : list Task) (add del : Action Task) (task : Task) :
  a_type add = PStr "added" →
  a_type del = PStr "deleted" →
  a_task del = Some task →
  t_id task = a_id add →
  Forall (λ t, t_id t ≠ a_id add) tasks →
  replay tasksReducer tasks [add; del] = Ok tasks.
Proof.
  intros Hadd Hdel Htask Hid Hfresh. simpl.
  rewrite (tasksReducer_added _ _ Hadd). simpl.
  rewrite (tasksReducer_deleted_some _ _ _ Hdel Htask). simpl.
  rewrite filter_app, filter_cons, filter_nil. simpl.
  case_decide as Hne; [by destruct Hne|].
  rewrite app_nil_r. clear Hne. f_equal.
  induction Hfresh as [|t tasks Ht _ IH]; [done|].
  rewrite filter_cons. rewrite decide_True by congruence. by rewrite IH.
Qed.

Lemma added_then_deleted_witness :
  replay tasksReducer initialTasks
    [ mkAction (PStr "added") PUndefined PUndefined (PNum 4) (PStr "Buy tea") None;
      mkAction (PStr "deleted") PUndefined PUndefined PUndefined PUndefined
        (Some (mkTask (PNum 4) (PStr "Buy tea") (PBool false))) ]
  = Ok initialTasks.
Proof.
  apply (added_then_deleted initialTasks
           (mkAction (PStr "added") PUndefined PUndefined (PNum 4) (PStr "Buy tea") None)
           (mkAction (PStr "deleted") PUndefined PUndefined PUndefined PUndefined
              (Some (mkTask (PNum 4) (PStr "Buy tea") (PBool false))))
           (mkTask (PNum 4) (PStr "Buy tea") (PBool false)));
    [reflexivity..|compute_done].
Defined.

(** X12: the reducer does not check that the id of an ['added'] action
    is new: with an id that a task of the list already has, the result
    holds two tasks with that id. *)
Theorem added_existing_id_duplicates (tasks : list Task) (action : Action Task) (t : Task) :
  a_type action = PStr "added" →
  t ∈ tasks →
  t_id t = a_id action →
  ∃ tasks', tasksReducer tasks action = Ok tasks' ∧ ¬ NoDup (t_id <$> tasks').
Proof.
  intros Hty Hin Hid. eexists. split; [by apply tasksReducer_added|].
  rewrite fmap_app. simpl. intros Hnd. apply NoDup_app in Hnd as (_ & Hdisj & _).
  apply (Hdisj (t_id t)).
  - apply list_elem_of_fmap. by exists t.
  - rewrite Hid. left.
Qed.

Lemma added_existing_id_duplicates_witness :
  ∃ tasks',
    tasksReducer initialTasks
      (mkAction (PStr "added") PUndefined PUndefined (PNum 1) (PStr "Again") None)
    = Ok tasks' ∧ ¬ NoDup (t_id <$> tasks').
Proof.
  apply (added_existing_id_duplicates initialTasks
           (mkAction (PStr "added") PUndefined PUndefined (PNum 1) (PStr "Again") None)
           (mkTask (PNum 1) (PStr "Visit the temple") (PBool false)));
    [reflexivity|compute_done|reflexivity].
Defined.

(** * The task components *)

Lemma replace_by_at (tasks : list Task) (i : nat) (task task' : Task) :
  NoDup (t_id <$> tasks) →
  tasks !! i = Some task →
  t_id task' = t_id task →
  replace_by task' <$> tasks = <[i := task']> tasks.
Proof.
  intros Hnd Hi Hid. apply list_eq. intros j.
  rewrite list_lookup_fmap.
  destruct (decide (j = i)) as [->|Hji].
  - rewrite Hi, list_lookup_insert_eq by (by eapply lookup_lt_Some).
    simpl. unfold replace_by. by rewrite decide_True.
  - rewrite list_lookup_insert_ne by done.
    destruct (tasks !! j) as [x|] eqn:Hj; [|done]. simpl.
    unfold replace_by. case_decide as Heq; [|done].
    destruct Hji. apply (NoDup_lookup _ j i (t_id x) Hnd).
    + by rewrite list_lookup_fmap, Hj.
    + rewrite list_lookup_fmap, Hi. simpl. congruence.
Qed.

(** X13: with pairwise distinct ids, typing in the input of the [Task]
    shown at place [i], or ticking its checkbox, changes the task at
    place [i] and no other: the list becomes the same list with that one
    task carrying the new text, or the new [done] flag; the counter and
    the text of [AddTask] stay as they are. *)
Theorem task_edit_changes_one (app : TasksApp) (i : nat) (task : Task)
    (value : string) (checked : bool) :
  NoDup (t_id <$> app_tasks app) →
  app_tasks app !! i = Some task →
  task_event_step app (ChangeTaskText task value)
  = Ok {| nextId := nextId app; add_text := add_text app;
          app_tasks := <[i := {| t_id := t_id task; t_text := PStr value;
                                 t_done := t_done task |}]> (app_tasks app) |} ∧
  task_event_step app (ChangeTaskDone task checked)
  = Ok {| nextId := nextId app; add_text := add_text app;
          app_tasks := <[i := {| t_id := t_id task; t_text := t_text task;
                                 t_done := PBool checked |}]> (app_tasks app) |}.
Proof.
  intros Hnd Hi. unfold task_event_step. simpl. split.
  - erewrite tasksReducer_changed_some by done. simpl.
    by rewrite (replace_by_at _ i task).
  - erewrite tasksReducer_changed_some by done. simpl.
    by rewrite (replace_by_at _ i task).
Qed.

Lemma task_edit_changes_one_witness :
  task_event_step initialTasksApp
    (ChangeTaskText (mkTask (PNum 1) (PStr "Visit the temple") (PBool false)) "Visit the shrine")
  = Ok {| nextId := 4; add_text := "";
          app_tasks :=
            [ mkTask (PNum 0) (PStr "Philosopher’s Path") (PBool true);
              mkTask (PNum 1) (PStr "Visit the shrine") (PBool false);
              mkTask (PNum 2) (PStr "Drink matcha") (PBool false) ] |} ∧
  task_event_step initialTasksApp
    (ChangeTaskDone (mkTask (PNum 1) (PStr "Visit the temple") (PBool false)) true)
  = Ok {| nextId := 4; add_text := "";
          app_tasks :=
            [ mkTask (PNum 0) (PStr "Philosopher’s Path") (PBool true);
              mkTask (PNum 1) (PStr "Visit the temple") (PBool true);
              mkTask (PNum 2) (PStr "Drink matcha") (PBool false) ] |}.
Proof.
  apply (task_edit_changes_one initialTasksApp 1
           (mkTask (PNum 1) (PStr "Visit the temple") (PBool false))
           "Visit the shrine" true).
  - compute_done.
  - reflexivity.
Defined.

Lemma count_adds_single (ev : TaskEvent) :
  count_adds [ev] = match ev with ClickAdd => 1 | _ => 0 end.
Proof.
  unfold count_adds. rewrite filter_cons, filter_nil.
  by destruct ev; case_decide.
Qed.

(** One handler call other than a click on Delete: it returns, keeps the
    ids fresh, and adds one task exactly when it is a click on Add. *)
Lemma task_event_step_fresh (app : TasksApp) (ev : TaskEvent) :
  is_click_delete ev = false →
  ∃ app', task_event_step app ev = Ok app' ∧
    (tasks_ids_fresh app → tasks_ids_fresh app') ∧
    nextId app' = (nextId app + Z.of_nat (count_adds [ev]))%Z ∧
    length (app_tasks app') = length (app_tasks app) + count_adds [ev].
Proof.
  intros Hev. rewrite count_adds_single.
  destruct ev as [v| |task v|task b|task]; try discriminate Hev;
    cbv beta iota delta [task_event_step task_event_action].
  - eexists. split; [done|]. simpl. split; [done|]. split; lia.
  - rewrite tasksReducer_added by done. simpl.
    eexists. split; [done|]. simpl. split; [|split; [lia|by rewrite length_app]].
    intros [Hnd Hlt]. split; simpl.
    + rewrite fmap_app. simpl. apply NoDup_app. split; [done|]. split.
      * intros x Hx Hx'. apply list_elem_of_singleton in Hx'. subst x.
        rewrite Forall_forall in Hlt. destruct (Hlt _ Hx) as (n & Hn & Hlt').
        injection Hn as <-. lia.
      * apply NoDup_singleton.
    + rewrite fmap_app. apply Forall_app. split.
      * eapply Forall_impl; [exact Hlt|]. intros x (n & -> & Hn). exists n. split; [done|lia].
      * repeat constructor. exists (nextId app). split; [done|lia].
  - erewrite tasksReducer_changed_some by done. simpl.
    eexists. split; [done|]. simpl. rewrite length_fmap.
    split; [|split; lia]. intros [Hnd Hlt]. split; simpl; by rewrite fmap_replace_by_ids.
  - erewrite tasksReducer_changed_some by done. simpl.
    eexists. split; [done|]. simpl. rewrite length_fmap.
    split; [|split; lia]. intros [Hnd Hlt]. split; simpl; by rewrite fmap_replace_by_ids.
Qed.

Lemma count_adds_cons (ev : TaskEvent) (events : list TaskEvent) :
  count_adds (ev :: events) = count_adds [ev] + count_adds events.
Proof.
  unfold count_adds. rewrite (filter_cons _ ev events), (filter_cons _ ev []).
  by case_decide.
Qed.

Lemma task_events_fresh (events : list TaskEvent) (app : TasksApp) :
  Forall (λ ev, is_click_delete ev = false) events →
  ∃ app', replay task_event_step app events = Ok app' ∧
    (tasks_ids_fresh app → tasks_ids_fresh app') ∧
    nextId app' = (nextId app + Z.of_nat (count_adds events))%Z ∧
    length (app_tasks app') = length (app_tasks app) + count_adds events.
Proof.
  intros Hev. revert app. induction Hev as [|ev events Hev _ IH]; intros app.
  { exists app. unfold count_adds. simpl. split; [done|]. split; [done|]. split; lia. }
  destruct (task_event_step_fresh app ev Hev) as (app1 & E1 & Hinv1 & Hn1 & Hl1).
  destruct (IH app1) as (app2 & E2 & Hinv2 & Hn2 & Hl2).
  exists app2. simpl. rewrite E1. simpl. split; [done|]. split; [tauto|].
  rewrite count_adds_cons. split; lia.
Qed.

(** X14: whatever is typed, ticked or added, in any order, from the
    initial list on, no handler fails and the ids of the tasks stay
    pairwise distinct numbers below [nextId]; the list has grown by one
    task, and [nextId] by one, per click on Add. *)
Theorem tasks_ids_stay_fresh (events : list TaskEvent) :
  Forall (λ ev, is_click_delete ev = false) events →
  ∃ app, replay task_event_step initialTasksApp events = Ok app ∧
    tasks_ids_fresh app ∧
    nextId app = (4 + Z.of_nat (count_adds events))%Z ∧
    length (app_tasks app) = 3 + count_adds events.
Proof.
  intros Hev.
  destruct (task_events_fresh events initialTasksApp Hev) as (app & E & Hinv & Hn & Hl).
  exists app. split; [done|]. split; [|by split].
  apply Hinv. split; simpl.
  - compute_done.
  - repeat constructor; eexists; (split; [done|lia]).
Qed.

Lemma tasks_ids_stay_fresh_witness :
  ∃ app,
    replay task_event_step initialTasksApp
      [ ChangeAddText "Buy tea"; ClickAdd; ClickAdd;
        ChangeTaskDone (mkTask (PNum 4) (PStr "Buy tea") (PBool false)) true ]
    = Ok app ∧
    tasks_ids_fresh app ∧
    nextId app = 6%Z ∧
    length (app_tasks app) = 5.
Proof.
  apply (tasks_ids_stay_fresh
           [ ChangeAddText "Buy tea"; ClickAdd; ClickAdd;
             ChangeTaskDone (mkTask (PNum 4) (PStr "Buy tea") (PBool false)) true ]).
  repeat constructor.
Defined.

Lemma task_events_delete_throws (events : list TaskEvent) (app : TasksApp) :
  app_tasks app ≠ [] →
  Exists (λ ev, is_click_delete ev = true) events →
  replay task_event_step app events = Throw (TypeError "id").
Proof.
  intros Hne Hex. revert app Hne.
  induction events as [|ev events IH]; intros app Hne; [by apply Exists_nil in Hex|].
  simpl. destruct (is_click_delete ev) eqn:Hev.
  - destruct ev as [| | | |task]; try done. unfold task_event_step. simpl.
    rewrite tasksReducer_deleted by done.
    destruct (app_tasks app) as [|t tasks]; [done|].
    by rewrite (array_filter_throw _ (TypeError "id")).
  - destruct (task_event_step_fresh app ev Hev) as (app1 & E1 & _ & _ & Hl1).
    rewrite E1. simpl. apply IH.
    + apply Exists_cons in Hex as [Hex|Hex]; [congruence|done].
    + intros Hnil. rewrite Hnil in Hl1. simpl in Hl1.
      destruct (app_tasks app); [done|simpl in Hl1; lia].
Qed.

(** X15: no task is ever deleted through the components.  From the
    initial list on, the list is never empty, so the first click on a
    Delete button, whichever task it belongs to and whatever was typed,
    ticked or added before, ends in the [TypeError] of reading [id] of
    [undefined]. *)
Theorem delete_click_always_fails (events : list TaskEvent) :
  Exists (λ ev, is_click_delete ev = true) events →
  replay task_event_step initialTasksApp events = Throw (TypeError "id").
Proof. apply task_events_delete_throws. discriminate. Qed.

Lemma delete_click_always_fails_witness :
  replay task_event_step initialTasksApp
    [ ChangeAddText "Buy tea"; ClickAdd;
      ClickDelete (mkTask (PNum 4) (PStr "Buy tea") (PBool false)); ClickAdd ]
  = Throw (TypeError "id").
Proof.
  apply (delete_click_always_fails
           [ ChangeAddText "Buy tea"; ClickAdd;
             ClickDelete (mkTask (PNum 4) (PStr "Buy tea") (PBool false)); ClickAdd ]).
  do 2 apply Exists_cons_tl. apply Exists_cons_hd. reflexivity.
Defined.

(** * Headings and image URLs *)

Lemma Section_level_iter (n : nat) :
  Nat.iter n Section_level LevelContext_default = Z.of_nat n.
Proof.
  induction n as [|n IH]; [done|]. simpl. rewrite IH. unfold Section_level. lia.
Qed.

(** X16: a [Heading] placed under [n] nested [Section]s, each of which
    provides one more than the level it reads, starting from the default
    [0] of the context, is the element [hn] when [n] is between 1 and 6;
    outside any [Section] and from the seventh nesting level on it throws
    [Error('Unknown level: ' + n)]. *)
Theorem Heading_at_depth (n : nat) (children : string) :
  Heading (PNum (Nat.iter n Section_level LevelContext_default)) children
  = if decide (1 ≤ n ≤ 6)%nat
    then Ok ("h" +:+ pretty n, children)
    else Throw (Error ("Unknown level: " +:+ pretty (Z.of_nat n))).
Proof.
  rewrite Section_level_iter.
  destruct (decide (n ≤ 6)%nat) as [Hle|Hgt].
  - do 7 (destruct n as [|n]; [reflexivity|]). lia.
  - rewrite decide_False by lia. unfold Heading, strict_eq.
    rewrite !bool_decide_eq_false_2; [done|intros [= H]; lia..].
Qed.

Lemma string_chars_app (a b : string) :
  String.list_ascii_of_string (a +:+ b)
  = (String.list_ascii_of_string a ++ String.list_ascii_of_string b)%list.
Proof. induction a as [|c a IH]; simpl; [done|]. by rewrite IH. Qed.

Lemma string_app_inv_tail (a b s : string) : a +:+ s = b +:+ s → a = b.
Proof.
  intros H. apply (f_equal String.list_ascii_of_string) in H.
  rewrite !string_chars_app in H. apply app_inv_tail in H.
  rewrite <-(String.string_of_list_ascii_of_string a).
  rewrite <-(String.string_of_list_ascii_of_string b). by rewrite H.
Qed.

(** X17: [getImageUrl] maps two places to the same URL only when their
    [imageId]s are the same string, so places with different image ids
    never share an image URL. *)
Theorem getImageUrl_inj (a b : prim) :
  getImageUrl a = getImageUrl b → to_string a = to_string b.
Proof.
  unfold getImageUrl. intros H.
  apply (inj (String.app "https://i.imgur.com/")) in H.
  by apply string_app_inv_tail in H.
Qed.

Lemma getImageUrl_inj_witness :
  getImageUrl (PStr "K9HVAGH") = "https://i.imgur.com/K9HVAGHl.jpg" ∧
  to_string (PStr "K9HVAGH") = to_string (PStr "K9HVAGH").
Proof.
  split; [reflexivity|].
  apply (getImageUrl_inj (PStr "K9HVAGH") (PStr "K9HVAGH")). reflexivity.
Defined.

(** * Sharing and allocation on the heap *)






Lemma array_map_changed_shares (h : heap) (action : Action loc) (lt : loc) (task : Task)
    (elems : list loc) (ts : list Task) :
  a_task action = Some lt →
  h !! lt = Some (CTask task) →
  Forall2 (λ l t, h !! l = Some (CTask t)) elems ts →
  array_map (changed_callbackH h action) elems
  = Some (Ok (zip_with (λ e t, if decide (t_id t = t_id task) then lt else e) elems ts)).
Proof.
  intros Htask Hlt. induction 1 as [|e t elems ts He _ IH]; simpl; [done|].
  rewrite IH. unfold changed_callbackH, action_task_idH, read_task.
  rewrite He, Htask. simpl. rewrite Hlt. simpl.
  unfold strict_eq. by case_bool_decide; case_decide.
Qed.

(** X19: a ['changed'] transition copies no task.  The result is one new
    array cell; at each place it holds the reference the old array holds
    there, or, where the id is the one of [action.task], the reference
    [action.task] itself, so the object of the caller becomes part of
    the state. *)
Theorem tasksReducerH_changed_shares (h : heap) (tasks : loc) (action : Action loc)
    (elems : list loc) (ts : list Task) (lt : loc) (task : Task) :
  a_type action = PStr "changed" →
  a_task action = Some lt →
  h !! lt = Some (CTask task) →
  h !! tasks = Some (CTasks elems) →
  Forall2 (λ l t, h !! l = Some (CTask t)) elems ts →
  ∃ l, tasksReducerH tasks action h
       = Some (Ok l, <[l := CTasks (zip_with (λ e t, if decide (t_id t = t_id task)
                                                      then lt else e) elems ts)]> h) ∧
       h !! l = None.
Proof.
  intros Hty Htask Hlt Htasks Helems. unfold tasksReducerH, read_tasks.
  rewrite Hty, Htasks. simpl.
  rewrite (array_map_changed_shares h action lt task elems ts) by done. simpl.
  eexists. split; [done|]. apply not_elem_of_dom, is_fresh.
Qed.

Lemma tasksReducerH_changed_shares_witness :
  ∃ l,
    tasksReducerH 6%positive
      (mkAction (PStr "changed") PUndefined PUndefined PUndefined PUndefined
         (Some 7%positive))
      example_heap
    = Some (Ok l, <[l := CTasks [3%positive; 7%positive; 5%positive]]> example_heap) ∧
    example_heap !! l = None.
Proof.
  apply (tasksReducerH_changed_shares example_heap 6%positive
           (mkAction (PStr "changed") PUndefined PUndefined PUndefined PUndefined
              (Some 7%positive))
           [3%positive; 4%positive; 5%positive] initialTasks 7%positive
           (mkTask (PNum 1) (PStr "Visit the temple") (PBool true)));
    [reflexivity..|].
  repeat constructor.
Defined.

Lemma messengerReducerH_shares_messages_witness :
  ∃ l h',
    messengerReducerH 1%positive
      (mkAction (PStr "changed_selection") (PNum 2) PUndefined PUndefined PUndefined None)
      example_heap = Some (Ok l, h') ∧
    example_heap !! l = None ∧
    h' !! l = Some (CState (PNum 2) 2%positive) ∧
    h' !! 1%positive = Some (CState (PNum 0) 2%positive).
Proof.
  apply (messengerReducerH_shares_messages example_heap 1%positive
           (mkAction (PStr "changed_selection") (PNum 2)
              PUndefined PUndefined PUndefined None)
           (PNum 0) 2%positive); reflexivity.
Defined.

(** * Other state updates *)

(** X21: [handleToggle] flips the membership of the toggled id and of no
    other id, and toggling the same id twice gives back the selection as
    it was. *)
Theorem handleToggle_flips (toggledId : prim) (prev : gset prim) :
  (toggledId ∈ handleToggle toggledId prev ↔ toggledId ∉ prev) ∧
  (∀ x, x ≠ toggledId → (x ∈ handleToggle toggledId prev ↔ x ∈ prev)) ∧
  handleToggle toggledId (handleToggle toggledId prev) = prev.
Proof.
  unfold handleToggle. split; [|split].
  - case_decide as Hin.
    + rewrite elem_of_difference, elem_of_singleton. tauto.
    + rewrite elem_of_union, elem_of_singleton. tauto.
  - intros x Hx. case_decide.
    + rewrite elem_of_difference, elem_of_singleton. tauto.
    + rewrite elem_of_union, elem_of_singleton. tauto.
  - apply set_eq. intros x.
    destruct (decide (toggledId ∈ prev)) as [Hin|Hnin].
    + rewrite decide_False
        by (rewrite elem_of_difference, elem_of_singleton; tauto).
      rewrite elem_of_union, elem_of_difference, elem_of_singleton.
      destruct (decide (x = toggledId)) as [->|]; tauto.
    + rewrite decide_True
        by (rewrite elem_of_union, elem_of_singleton; tauto).
      rewrite elem_of_difference, elem_of_union, elem_of_singleton.
      destruct (decide (x = toggledId)) as [->|]; tauto.
Qed.

(** X22: [handleComplete] on a parent that the plan has removes
    [childId] from the children of that parent, keeps its other children
    in their order and every other place of the plan as it is, the place
    of the removed child included, and adds or removes no key. *)
Theorem handleComplete_removes_child (plan : gmap string Place) (parentId childId : prim)
    (parent : Place) :
  plan !! to_string parentId = Some parent →
  ∃ plan' parent',
    handleComplete plan parentId childId = Ok plan' ∧
    plan' !! to_string parentId = Some parent' ∧
    p_title parent' = p_title parent ∧
    p_childIds parent' = filter (λ id, id ≠ childId) (p_childIds parent) ∧
    (childId ∉ p_childIds parent') ∧
    (∀ k, k ≠ to_string parentId → plan' !! k = plan !! k) ∧
    dom plan' = dom plan.
Proof.
  intros Hp. unfold handleComplete. rewrite Hp. eexists _, _.
  split; [done|]. split; [apply lookup_insert_eq|]. simpl.
  split; [done|]. split; [done|]. split; [|split].
  - intros Hin. apply list_elem_of_filter in Hin as [Hne _]. by destruct Hne.
  - intros k Hk. by apply lookup_insert_ne.
  - rewrite dom_insert_L. apply elem_of_dom_2 in Hp.
    apply set_eq. intros k. rewrite elem_of_union, elem_of_singleton.
    split; [intros [->|]; done|tauto].
Qed.

Lemma handleComplete_removes_child_witness :
  ∃ plan' parent',
    handleComplete
      {[ "0" := mkPlace (PStr "(Root)") [PNum 1; PNum 2];
         "1" := mkPlace (PStr "Earth") [];
         "2" := mkPlace (PStr "Moon") [] ]} (PNum 0) (PNum 1)
    = Ok plan' ∧
    plan' !! "0" = Some parent' ∧
    p_title parent' = PStr "(Root)" ∧
    p_childIds parent' = [PNum 2] ∧
    (PNum 1 ∉ p_childIds parent') ∧
    (∀ k, k ≠ "0" →
       plan' !! k
       = ({[ "0" := mkPlace (PStr "(Root)") [PNum 1; PNum 2];
             "1" := mkPlace (PStr "Earth") [];
             "2" := mkPlace (PStr "Moon") [] ]} : gmap string Place) !! k) ∧
    dom plan'
    = dom ({[ "0" := mkPlace (PStr "(Root)") [PNum 1; PNum 2];
              "1" := mkPlace (PStr "Earth") [];
              "2" := mkPlace (PStr "Moon") [] ]} : gmap string Place).
Proof.
  apply (handleComplete_removes_child
           {[ "0" := mkPlace (PStr "(Root)") [PNum 1; PNum 2];
              "1" := mkPlace (PStr "Earth") [];
              "2" := mkPlace (PStr "Moon") [] ]} (PNum 0) (PNum 1)
           (mkPlace (PStr "(Root)") [PNum 1; PNum 2])).
  reflexivity.
Defined.

Lemma next_index_in_range_aux (count index : Z) :
  (0 ≤ index < count)%Z →
  next_image_index count index = ((index + 1) `mod` count)%Z ∧
  next_cat_index count index = ((index + 1) `mod` count)%Z.
Proof.
  intros H. unfold next_image_index, next_cat_index.
  rewrite Z.rem_mod_nonneg by lia.
  destruct (decide (index < count - 1)%Z) as [Hlt|Hge].
  - by rewrite Z.mod_small by lia.
  - replace (index + 1)%Z with count by lia. by rewrite Z.mod_same by lia.
Qed.

(** X23: the two carousels step alike.  For a list of [count] images and
    an index within it, the index set by the Next button of
    [CLEAR_AN_IMAGE_WHILE_IT_IS_LOADING] and the one set by
    [SCROLLING_AN_IMAGE_CAROUSEL] are the same, the successor modulo
    [count], and it is again within the list, so [images[index]] is
    never [undefined]. *)
Theorem next_index_in_range (count index : Z) :
  (0 ≤ index < count)%Z →
  next_image_index count index = ((index + 1) `mod` count)%Z ∧
  next_cat_index count index = ((index + 1) `mod` count)%Z ∧
  (0 ≤ next_image_index count index < count)%Z.
Proof.
  intros H. destruct (next_index_in_range_aux count index H) as [E1 E2].
  split; [done|]. split; [done|]. rewrite E1. apply Z.mod_pos_bound. lia.
Qed.

Lemma next_index_in_range_witness :
  next_image_index 7 6 = ((6 + 1) `mod` 7)%Z ∧
  next_cat_index 7 6 = ((6 + 1) `mod` 7)%Z ∧
  (0 ≤ next_image_index 7 6 < 7)%Z.
Proof. apply (next_index_in_range 7 6). lia. Defined.

(** X24: after [k] clicks on Next, starting at the first image, the
    carousel shows the image of index [k mod count]: it walks through
    all the images in order and starts over. *)
Theorem next_image_index_iter (count : Z) (k : nat) :
  (0 < count)%Z →
  Nat.iter k (next_image_index count) 0%Z = (Z.of_nat k `mod` count)%Z.
Proof.
  intros Hc. induction k as [|k IH]; [by rewrite Z.mod_0_l by lia|].
  simpl. rewrite IH.
  destruct (next_index_in_range_aux count (Z.of_nat k `mod` count)) as [-> _];
    [apply Z.mod_pos_bound; lia|].
  rewrite Nat2Z.inj_succ, <-Z.add_1_r. by rewrite Zplus_mod_idemp_l.
Qed.

Lemma next_image_index_iter_witness :
  Nat.iter 9 (next_image_index 7) 0%Z = (Z.of_nat 9 `mod` 7)%Z.
Proof. apply (next_image_index_iter 7 9). lia. Defined.
